(** * POI resolution and call-path discovery: a shallow embedding

    The development follows [aijon/aijon_lib/poi_interface]:
    - [poi_poi.py]: the base [POI] class: the harness call-graph cache, the
      timeout-bounded call-path engine and the function resolver front end;
    - [crash_poi.py]: ingestion of sanitizer crash reports;
    - [oss_fuzz_poi.py]: ingestion of coverage-gap (optimal-targets) reports.

    Python values are modelled as the code uses them: [str] as [string],
    [dict] as [gmap], [set] as [gset], [None] through [option], and raised
    exceptions through the [outcome] type below.

    A [string] stands for ASCII text, one [ascii] per character.  Python's
    [re] classes [\d], [\s], [\S] and its [int] also accept digits and white
    space beyond ASCII, which this text type does not hold; the statements
    that turn on what the pattern finds or on what [int] reads are made for
    ASCII text ([is_ascii_text]). *)

From Stdlib Require Import ZArith QArith Ascii String List.
From stdpp Require Import base option list gmap strings pretty fin_maps sets.

Set Warnings "-clear-no-such-hyp".

Open Scope string_scope.
Open Scope list_scope.
Open Scope nat_scope.

(** ** Exceptions and results *)

(** The exception classes the modelled code can raise.  [FuelExhausted] is
    not a Python exception: it marks the loop bound of the model of
    [find_longest_paths] being hit, which [find_longest_paths_returns] shows
    never happens. *)
Inductive exn : Type :=
  | TimeoutError
  | ValueError (msg : string)
  | TypeError
  | AttributeError
  | KeyError
  | NodeNotFound
  | NetworkXNoPath
  | ResolverError
  | FuelExhausted.

Inductive outcome (A : Type) : Type :=
  | Return (a : A)
  | Raise (e : exn).
Arguments Return {A} a.
Arguments Raise {A} e.

#[global] Instance outcome_bind : MBind outcome := λ A B k m,
  match m with
  | Return a => k a
  | Raise e => Raise e
  end.

(** [try: m except: d], a bare [except] clause that swallows every exception. *)
Definition try_except {A} (m : outcome A) (d : A) : A :=
  match m with
  | Return a => a
  | Raise _ => d
  end.

(** ** State and exceptions *)

(** Code that mutates [self] and may raise: the state reached is kept when an
    exception leaves the method. *)
Definition run (S A : Type) : Type := S → S * outcome A.

Definition ret {S A} (a : A) : run S A := λ s, (s, Return a).

Definition sbind {S A B} (m : run S A) (k : A → run S B) : run S B := λ s,
  match m s with
  | (s', Return a) => k a s'
  | (s', Raise e) => (s', Raise e)
  end.

Definition lift {S A} (o : outcome A) : run S A := λ s, (s, o).
Definition gets {S A} (f : S → A) : run S A := λ s, (s, Return (f s)).
Definition modify {S} (f : S → S) : run S unit := λ s, (f s, Return tt).

Notation "'let*' x ':=' m 'in' k" := (sbind m (λ x, k))
  (at level 10, x name, m at level 100, k at level 200).

Inductive loop_control : Type := LoopBreak | LoopContinue.

(** ** Call graphs ([networkx.DiGraph] restricted to what the code uses) *)

(** A directed graph is its adjacency dictionary: every node is a key, mapped
    to the list of its successors in insertion order.  NetworkX keeps a
    mirrored predecessor dictionary as well; here predecessors are read off
    the adjacency dictionary. *)
Abbreviation DiGraph := (gmap string (list string)).

(** [n in cg] *)
Definition has_node (cg : DiGraph) (n : string) : bool :=
  bool_decide (is_Some (cg !! n)).

(** [cg[n]], the successors of a node of the graph. *)
Definition successors (cg : DiGraph) (n : string) : list string :=
  default [] (cg !! n).

(** [cg.has_edge(u, v)] *)
Definition has_edge (cg : DiGraph) (u v : string) : bool :=
  bool_decide (v ∈ successors cg u).

(** [list(cg.nodes)] *)
Definition nodes (cg : DiGraph) : list string := (map_to_list cg).*1.

(** [list(cg.predecessors(v))] *)
Definition predecessors (cg : DiGraph) (v : string) : list string :=
  filter (λ u, v ∈ successors cg u) (nodes cg).

Definition add_node (n : string) (cg : DiGraph) : DiGraph :=
  match cg !! n with
  | Some _ => cg
  | None => <[n := []]> cg
  end.

(** [cg.add_edge(u, v)]: both end points become nodes, then the edge is
    recorded (once). *)
Definition add_edge (u v : string) (cg : DiGraph) : DiGraph :=
  let cg := add_node v (add_node u cg) in
  let s := successors cg u in
  if bool_decide (v ∈ s) then cg else <[u := s ++ [v]]> cg.

(** [v] is reachable from the node [u] along caller-to-callee edges. *)
Definition reachable (cg : DiGraph) (u v : string) : Prop :=
  has_node cg u = true ∧ rtc (λ a b, has_edge cg a b = true) u v.

(** Every callee is a node: the invariant that [add_edge] maintains. *)
Definition closed (cg : DiGraph) : Prop :=
  ∀ u v, v ∈ successors cg u → is_Some (cg !! v).

(** [l] continues a path that stands at [u]. *)
Fixpoint is_chain (cg : DiGraph) (u : string) (l : list string) : Prop :=
  match l with
  | [] => True
  | v :: l' => v ∈ successors cg u ∧ is_chain cg v l'
  end.

(** ** Simple-path enumeration ([networkx.all_simple_paths]) *)

(** [set(target)] for a string: its one-character substrings. *)
Fixpoint chars (s : string) : list string :=
  match s with
  | EmptyString => []
  | String c s' => String c EmptyString :: chars s'
  end.

(** The depth-first search of NetworkX 3: [next_node] has just been reached
    along [path]; it is reported if it is a target, and the search goes on
    through it while the depth bound allows and some target is still off the
    path.  [fuel] is [cutoff - len(path)].  (Older releases report nothing
    when the source is itself a target; [_find_paths] below starts its result
    with the sink, so the names it returns are the same.) *)
Fixpoint simple_paths_visit (fuel : nat) (cg : DiGraph) (targets : list string)
    (path : list string) (next_node : string) : list (list string) :=
  let path' := path ++ [next_node] in
  (if bool_decide (next_node ∈ targets) then [path'] else []) ++
  match fuel with
  | O => []
  | S fuel' =>
      if forallb (λ t, bool_decide (t ∈ path')) targets then []
      else
        filter (λ w, w ∉ path') (successors cg next_node)
          ≫= simple_paths_visit fuel' cg targets path'
  end.

(** [list(nx.all_simple_paths(cg, source, target))] with the default cutoff
    [len(cg) - 1].  A target that is not a node is taken as a collection of
    targets, for a string its characters. *)
Definition all_simple_paths (cg : DiGraph) (source target : string)
    : outcome (list (list string)) :=
  if has_node cg source then
    let targets := if has_node cg target then [target] else chars target in
    match targets with
    | [] => Return []
    | _ => Return (simple_paths_visit (size cg - 1) cg targets [] source)
    end
  else Raise NodeNotFound.

(** ** String helpers *)

(** [needle in s] for strings *)
Fixpoint is_infix (needle s : string) : bool :=
  String.prefix needle s ||
  match s with
  | EmptyString => false
  | String _ s' => is_infix needle s'
  end.

(** [s.split(sep, maxsplit)] for a one-character separator, on the list of
    characters. *)
Fixpoint split_chars (sep : ascii) (s : list ascii) (maxsplit : nat)
    : list (list ascii) :=
  match s with
  | [] => [[]]
  | c :: s' =>
      match maxsplit with
      | O => [s]
      | S m =>
          if decide (c = sep) then [] :: split_chars sep s' m
          else match split_chars sep s' maxsplit with
               | [] => [[c]]
               | w :: ws => (c :: w) :: ws
               end
      end
  end.

(** [s.rsplit(sep, maxsplit)] *)
Definition rsplit (sep : ascii) (maxsplit : nat) (s : string) : list string :=
  reverse (map (λ w, string_of_list_ascii (reverse w))
             (split_chars sep (reverse (list_ascii_of_string s)) maxsplit)).

Definition is_digit (c : ascii) : bool :=
  (48 <=? nat_of_ascii c)%nat && (nat_of_ascii c <=? 57)%nat.

(** Python's [str.isspace] on the ASCII range, which is also what [\s]
    matches there: blank, [\t\n\v\f\r] and the separators [\x1c] to
    [\x1f]. *)
Definition is_space (c : ascii) : bool :=
  let n := nat_of_ascii c in
  (n =? 32)%nat || ((9 <=? n)%nat && (n <=? 13)%nat)
  || ((28 <=? n)%nat && (n <=? 31)%nat).

(** The digits of an [int] literal: decimal digits, single underscores
    allowed between two digits. *)
Fixpoint digits_value (acc : Z) (after_digit : bool) (s : list ascii) : option Z :=
  match s with
  | [] => if after_digit then Some acc else None
  | c :: s' =>
      if decide (c = "_"%char) then
        if after_digit then digits_value acc false s' else None
      else if is_digit c then
        digits_value (10 * acc + Z.of_nat (nat_of_ascii c - 48)) true s'
      else None
  end.

(** The white space that [int] skips around the digits of an ASCII string:
    blank and [\t\n\v\f\r].  The separators [\x1c] to [\x1f] are not
    skipped: [int("\x1c42")] raises [ValueError]. *)
Definition is_int_space (c : ascii) : bool :=
  let n := nat_of_ascii c in
  (n =? 32)%nat || ((9 <=? n)%nat && (n <=? 13)%nat).

Fixpoint lstrip (s : list ascii) : list ascii :=
  match s with
  | c :: s' => if is_int_space c then lstrip s' else s
  | [] => []
  end.

(** [int(s)] for an ASCII string: surrounding white space, an optional sign,
    digits.  [None] stands for [ValueError]. *)
Definition int_of_str (s : string) : option Z :=
  match reverse (lstrip (reverse (lstrip (list_ascii_of_string s)))) with
  | "+"%char :: ds => digits_value 0 false ds
  | "-"%char :: ds => Z.opp <$> digits_value 0 false ds
  | ds => digits_value 0 false ds
  end.

(** [Path(p).name]: the last component of the path, components being
    separated by [/] and empty or [.] components dropped. *)
Definition path_name (p : string) : string :=
  let parts := filter (λ w, w ≠ "" ∧ w ≠ ".")
                 (string_of_list_ascii <$>
                    split_chars "/"%char (list_ascii_of_string p) (String.length p)) in
  default "" (last parts).

(** ** The stack-frame pattern *)

(** Regular expressions as far as [line_pattern] needs them: a sequence of
    single characters, [+] repetitions of a character class (greedy, or lazy
    for [+?]) and capture-group brackets, matched by backtracking in Python's
    order of preference.  The classes are those of Python's [re] on ASCII
    text. *)
Inductive cclass : Type :=
  | CLit (c : ascii)      (* a literal character *)
  | CDigit                (* \d *)
  | CSpace                (* \s *)
  | CNonSpace             (* \S, [^\s] *)
  | CAny.                 (* . (no DOTALL): anything but a newline *)

Inductive re_item : Type :=
  | One (c : cclass)
  | Plus (greedy : bool) (c : cclass)
  | GroupOpen
  | GroupClose.

Definition in_class (cl : cclass) (c : ascii) : bool :=
  match cl with
  | CLit a => bool_decide (c = a)
  | CDigit => is_digit c
  | CSpace => is_space c
  | CNonSpace => negb (is_space c)
  | CAny => negb (bool_decide (c = "010"%char))
  end.

(** [re_match r s opened caps]: match [r] at the start of [s]; [opened] holds
    the input as it was when the current group was opened, [caps] the groups
    closed so far (last first).  The result is the unread input and the
    captured groups. *)
Fixpoint re_match (r : list re_item) (s : list ascii) (opened : list ascii)
    (caps : list string) : option (list ascii * list string) :=
  match r with
  | [] => Some (s, reverse caps)
  | One cl :: r' =>
      match s with
      | c :: s' => if in_class cl c then re_match r' s' opened caps else None
      | [] => None
      end
  | GroupOpen :: r' => re_match r' s s caps
  | GroupClose :: r' =>
      re_match r' s opened
        (string_of_list_ascii (take (length opened - length s) opened) :: caps)
  | Plus greedy cl :: r' =>
      (fix repeat (s : list ascii) : option (list ascii * list string) :=
         match s with
         | c :: s' =>
             if in_class cl c then
               if greedy then
                 match repeat s' with
                 | Some m => Some m
                 | None => re_match r' s' opened caps
                 end
               else
                 match re_match r' s' opened caps with
                 | Some m => Some m
                 | None => repeat s'
                 end
             else None
         | [] => None
         end) s
  end.

(** [re.findall(r, s)]: the groups of the successive leftmost matches.
    [skip] counts the characters still covered by the last match. *)
Fixpoint findall_from (r : list re_item) (s : list ascii) (skip : nat)
    : list (list string) :=
  match s with
  | [] => []
  | _ :: s' =>
      match skip with
      | S k => findall_from r s' k
      | O =>
          match re_match r s [] [] with
          | Some (rest, groups) =>
              groups :: findall_from r s' (length s - length rest - 1)
          | None => findall_from r s' 0
          end
      end
  end.

Definition findall (r : list re_item) (s : string) : list (list string) :=
  findall_from r (list_ascii_of_string s) 0.

(** [line_pattern = r"#\d+\s+[^\s]+\s+in\s+(.+?)\s+(/\S+:\d+)"] *)
Definition line_pattern : list re_item :=
  [ One (CLit "#"); Plus true CDigit; Plus true CSpace; Plus true CNonSpace;
    Plus true CSpace; One (CLit "i"); One (CLit "n"); Plus true CSpace;
    GroupOpen; Plus false CAny; GroupClose; Plus true CSpace;
    GroupOpen; One (CLit "/"); Plus true CNonSpace; One (CLit ":");
    Plus true CDigit; GroupClose ].

(** [re.findall(line_pattern, text)] as the pairs [(func, loc)] *)
Definition line_matches (text : string) : list (string * string) :=
  omap (λ groups, match groups with
                  | [func; loc] => Some (func, loc)
                  | _ => None
                  end) (findall line_pattern text).


(** ** JSON values and catalog entries *)

(** A decoded JSON value, as far as the ingestion code looks into it: lists
    and objects are only passed around.  Floats are the finite ones. *)
Inductive json : Type :=
  | JNull
  | JBool (b : bool)
  | JInt (z : Z)
  | JFloat (q : Q)
  | JStr (s : string)
  | JContainer.

(** The entries of [self._pois]: dictionaries with the keys of one of the
    ingestion pipelines. *)
Inductive poi : Type :=
  | CrashReportPOI (function_index_key : string) (error_summary : option string)
      (error_str : string) (backtrace : string * string)
      (function_contains_vulnerability : bool)
  | CoverageGapPOI (function_index_key : string)
      (runtime_coverage_percent accummulated_complexity : json).

(** [poi["function_index_key"]] *)
Definition function_index_key (p : poi) : string :=
  match p with
  | CrashReportPOI k _ _ _ _ => k
  | CoverageGapPOI k _ _ => k
  end.

(** ** The function resolver *)

(** A [FunctionIndex] entry, with the attributes the code reads. *)
Record FunctionIndex : Type := {
  funcname : string;
  start_line : Z;
  end_line : Z;
  is_generated_during_build : bool;
}.

(** The query interface of the FunctionIndex store
    ([project_utils.function_resolver.FunctionResolver]), an external
    collaborator: each query is a parameter, with the arguments the code
    fixes ([scope="focus"], [can_include_self=False],
    [can_include_build_generated=False], [num_top_matches=3],
    [allow_build_generated=False], [focus_repo_only=True]) left out.  A query
    may raise, and [get] may hand back [None]. *)
Record FunctionResolver : Type := {
  SourceLocation : Type;
  function_index_to_source_location : string → option FunctionIndex → SourceLocation;
  find_matching_index : string → outcome (option string);
  get : string → outcome (option FunctionIndex);
  find_by_filename : string → outcome (list string);
  (** component [0] of the result of [find_matching_indices] *)
  find_matching_indices : list string → outcome (gmap string string);
  resolve_source_location : SourceLocation → outcome (list (string * Z));
}.

(** * The base class [POI] ([poi_poi.py]) *)

Module POI.

(** [POI.gen_callgraph_from_file], from the parsed YAML mapping
    [{caller: [callee, ...]}] on.
<<
        callgraph = nx.DiGraph()
        obj = yaml.safe_load(yaml_file.read_text())
        for key in obj:
            for value in obj[key]:
                callgraph.add_edge(key, value)
        return callgraph
>> *)
Definition add_callees (cg : DiGraph) (entry : string * list string) : DiGraph :=
  foldl (λ cg value, add_edge entry.1 value cg) cg entry.2.

Definition gen_callgraph_from_file (obj : gmap string (list string)) : DiGraph :=
  foldl add_callees ∅ (map_to_list obj).

(** ** Transitive callers ([POI.find_longest_paths]) *)

(** One round of
<<
            for pred in predecessors:
                if pred not in seen:
                    seen.add(pred)
                    worklist.append(pred)
>>
    The worklist is kept top first: [pop()] takes the head and [append]
    pushes in front. *)
Definition push_unseen (acc : gset string * list string) (pred : string)
    : gset string * list string :=
  if bool_decide (pred ∈ acc.1) then acc else ({[pred]} ∪ acc.1, pred :: acc.2).

Fixpoint longest_paths_loop (fuel : nat) (cg : DiGraph) (worklist : list string)
    (seen : gset string) (longest_paths : list string) : outcome (list string) :=
  match worklist with
  | [] => Return longest_paths
  | current_node :: worklist =>
      match fuel with
      | O => Raise FuelExhausted
      | S fuel' =>
          let preds := predecessors cg current_node in
          let acc := foldl push_unseen (seen, worklist) preds in
          longest_paths_loop fuel' cg acc.2 acc.1 (longest_paths ++ preds)
      end
  end.

Definition find_longest_paths (cg : DiGraph) (sink_node : string)
    : outcome (list (list string)) :=
  if has_node cg sink_node then
    let worklist := predecessors cg sink_node in
    longest_paths ← longest_paths_loop (size cg) cg (reverse worklist)
                      (list_to_set worklist) ([sink_node] ++ worklist);
    Return [longest_paths]
  else Return [[sink_node]].

(** ** The timeout wrapper ([with_timeout]) *)

(** The decorated call runs in a worker thread that the caller joins for at
    most [seconds].  [elapsed] is the time the worker needs, a fact of the
    run that the model takes as a parameter ([None]: it never finishes); the
    thread is still alive after the join exactly when the worker needs more
    than the time waited.  A finished worker hands back its exception or its
    result. *)
Definition thread_is_alive (seconds : Z) (elapsed : option Z) : bool :=
  match elapsed with
  | None => true
  | Some t => bool_decide (Z.max 0 seconds < t)%Z
  end.

Definition with_timeout {A} (seconds : Z) (elapsed : option Z) (func : outcome A)
    : outcome A :=
  if thread_is_alive seconds elapsed then Raise TimeoutError else func.

(** ** The call-path engine ([POI.get_call_path_to]) *)

Definition entry_node (cg : DiGraph) : string :=
  if has_node cg "LLVMFuzzerTestOneInput" then "LLVMFuzzerTestOneInput" else "main".

(** The body of the loop over the cached harness graphs. *)
Definition harness_paths (sink_funcname : string) (cg : DiGraph)
    : outcome (list (list string)) :=
  let start_node := entry_node cg in
  if has_node cg start_node then
    match all_simple_paths cg start_node sink_funcname with
    | Raise NetworkXNoPath => Return []
    | r => r
    end
  else find_longest_paths cg sink_funcname.

Fixpoint collect_call_path (sink_funcname : string) (graphs : list DiGraph)
    (call_path : list string) : outcome (list string) :=
  match graphs with
  | [] => Return call_path
  | cg :: graphs =>
      paths ← harness_paths sink_funcname cg;
      collect_call_path sink_funcname graphs (call_path ++ concat paths)
  end.

(** [_find_paths]; [list(set(call_path))] lists each name once, in an order
    the caller cannot rely on. *)
Definition _find_paths (harness_cfg : gmap string DiGraph) (sink_funcname : string)
    : outcome (list string) :=
  call_path ← collect_call_path sink_funcname (map_to_list harness_cfg).*2
                [sink_funcname];
  Return (elements (list_to_set call_path : gset string)).

Definition get_call_path_to (harness_cfg : gmap string DiGraph) (sink_funcname : string)
    (timeout_seconds : Z) (elapsed : option Z) : outcome (list string) :=
  match with_timeout timeout_seconds elapsed (_find_paths harness_cfg sink_funcname) with
  | Raise TimeoutError => Return [sink_funcname]
  | r => r
  end.

(** [POI.get_function_index_from_poi].  The two [logger.debug] calls format
    [resolved_function_index.is_generated_during_build], which raises
    [AttributeError] on [None]. *)
Definition get_function_index_from_poi (R : FunctionResolver)
    (function_index_str : string) : outcome (option FunctionIndex) :=
  let resolved_function_index_key :=
    try_except (find_matching_index R function_index_str) None in
  match resolved_function_index_key with
  | Some key =>
      let resolved_function_index := try_except (get R key) None in
      match resolved_function_index with
      | None => Raise AttributeError
      | Some fi => Return (Some fi)
      end
  | None =>
      let resolved_function_index := try_except (get R function_index_str) None in
      match resolved_function_index with
      | Some fi => Return (Some fi)
      | None =>
          let src_location :=
            function_index_to_source_location R function_index_str None in
          let candidates := try_except (resolve_source_location R src_location) [] in
          match candidates with
          | [] =>
              Raise (ValueError ("Function index " +:+ function_index_str
                                   +:+ " could not be resolved."))
          | (actual_key, _) :: _ => Return (try_except (get R actual_key) None)
          end
      end
  end.

End POI.

(** * Crash-report ingestion ([crash_poi.py]) *)

Module CrashPOI.

(** The attributes of a [CrashPOI] object that the modelled methods use,
    from [add_poi] on (which creates the last two). *)
Record state : Type := {
  harness_cfg : gmap string DiGraph;
  _pois : list poi;
  _block_leaders : list string;
  _block_leaders_call_path : gmap string (list string);
}.

(** [CrashPOI.get_call_path_to] *)
Definition get_call_path_to (self : state) (sink_funcname : string) : list string :=
  let call_path :=
    if bool_decide (size (harness_cfg self) = 1%nat) then
      match (map_to_list (harness_cfg self)).*2 with
      | cg :: _ =>
          if negb (has_node cg "LLVMFuzzerTestOneInput") then
            if has_node cg "main" then ["main"] else []
          else []
      | [] => []
      end
    else [] in
  call_path ++ [sink_funcname]
    ++ default [] (_block_leaders_call_path self !! sink_funcname).

(** The scan of [get_funcindex_from_backtrace] over the keys of one file:
    those whose entry spans the line. *)
Fixpoint indices_at_line (R : FunctionResolver) (keys : list string)
    (line_number : Z) : outcome (list string) :=
  match keys with
  | [] => Return []
  | index_key :: keys =>
      function_index ← get R index_key;
      rest ← indices_at_line R keys line_number;
      match function_index with
      | None => Return rest
      | Some fi =>
          if bool_decide (start_line fi ≤ line_number ≤ end_line fi)%Z
          then Return (index_key :: rest) else Return rest
      end
  end.

(** [CrashPOI.get_funcindex_from_backtrace]; [func_name] is not used.
    [list(set(...))[0]] picks the element the set lists first. *)
Definition get_funcindex_from_backtrace {A} (R : FunctionResolver) (func_name : A)
    (file_path : string) (line_number : Z) : outcome (option string) :=
  keys ← find_by_filename R file_path;
  func_indices ← indices_at_line R keys line_number;
  let foo := filter (λ x, is_infix file_path x = true) func_indices in
  matching ← find_matching_indices R foo;
  let fixed_indices :=
    elements (list_to_set (map_to_list matching).*2 : gset string) in
  Return (head fixed_indices).

(** The report as [parse_poi_from_crash_report] sees it after its leading
    regular expressions: the stack-trace blocks found by [block_pattern]
    (both groups), the [SUMMARY:] line if any, and the error text. *)
Record crash_report : Type := {
  matches : list (string * string);
  error_summary : option string;
  actual_error_str : string;
}.

(** The object together with the local variables of the parsing loop.
    [submitted] is a trace: the arguments of the calls made to
    [get_funcindex_from_backtrace], in order. *)
Record walk : Type := {
  self : state;
  seen_func_indices : gset string;
  first_leader : option string;
  submitted : list (string * string * Z);
}.

Definition with_self (f : state → state) (w : walk) : walk :=
  {| self := f (self w); seen_func_indices := seen_func_indices w;
     first_leader := first_leader w; submitted := submitted w |}.

Definition log_query (q : string * string * Z) (w : walk) : walk :=
  {| self := self w; seen_func_indices := seen_func_indices w;
     first_leader := first_leader w; submitted := submitted w ++ [q] |}.

Definition add_seen (func_index : string) (w : walk) : walk :=
  {| self := self w; seen_func_indices := {[func_index]} ∪ seen_func_indices w;
     first_leader := first_leader w; submitted := submitted w |}.

Definition set_first_leader (leader : option string) (w : walk) : walk :=
  {| self := self w; seen_func_indices := seen_func_indices w;
     first_leader := leader; submitted := submitted w |}.

Definition append_poi (p : poi) (st : state) : state :=
  {| harness_cfg := harness_cfg st; _pois := _pois st ++ [p];
     _block_leaders := _block_leaders st;
     _block_leaders_call_path := _block_leaders_call_path st |}.

(** [self._block_leaders.append(funcname)] and
    [self._block_leaders_call_path[funcname] = []] *)
Definition open_block (funcname : string) (st : state) : state :=
  {| harness_cfg := harness_cfg st; _pois := _pois st;
     _block_leaders := _block_leaders st ++ [funcname];
     _block_leaders_call_path := <[funcname := []]> (_block_leaders_call_path st) |}.

Definition set_call_path (leader_name : string) (suffix : list string) (st : state)
    : state :=
  {| harness_cfg := harness_cfg st; _pois := _pois st;
     _block_leaders := _block_leaders st;
     _block_leaders_call_path := <[leader_name := suffix]> (_block_leaders_call_path st) |}.

(** [self.function_resolver.get(key).funcname] *)
Definition funcname_of (R : FunctionResolver) (key : string) : outcome string :=
  function_index ← get R key;
  match function_index with
  | Some fi => Return (funcname fi)
  | None => Raise AttributeError
  end.

(** [int(line_number)] *)
Definition int_or_raise (s : string) : outcome Z :=
  match int_of_str s with
  | Some n => Return n
  | None => Raise (ValueError "invalid literal for int() with base 10")
  end.

(** The body of the loop over the frames of a block, for one match
    [(func, loc)] of [line_pattern]; the result tells whether the loop goes
    on, and the block's leader afterwards. *)
Definition frame_step (R : FunctionResolver) (report : crash_report)
    (block : string * string) (frame : string * string) (leader : option string)
    : run walk (loop_control * option string) :=
  let '(func, loc) := frame in
  if is_infix "LLVMFuzzerTestOneInput" func then ret (LoopBreak, leader)
  else if is_infix "__libc_start_main" func then ret (LoopBreak, leader)
  else
    match rsplit ":" 2 loc with
    | [filepath; line_number; _] =>
        let* line := lift (int_or_raise line_number) in
        let* _ := modify (log_query (func, path_name filepath, line)) in
        let* func_index :=
          lift (get_funcindex_from_backtrace R func (path_name filepath) line) in
        match func_index with
        | None => ret (LoopContinue, leader)
        | Some func_index =>
            let* seen := gets seen_func_indices in
            if bool_decide (func_index ∈ seen) then ret (LoopContinue, leader)
            else
              let* _ := modify (add_seen func_index) in
              let* funcname := lift (funcname_of R func_index) in
              let* leader :=
                match leader with
                | None =>
                    let* _ := modify (with_self (open_block funcname)) in
                    ret (Some func_index)
                | Some l =>
                    let* leader_name := lift (funcname_of R l) in
                    let* call_paths := gets (λ w, _block_leaders_call_path (self w)) in
                    match call_paths !! leader_name with
                    | Some suffix =>
                        let* _ := modify (with_self
                                    (set_call_path leader_name (suffix ++ [funcname]))) in
                        ret leader
                    | None => lift (Raise KeyError)
                    end
                end in
              let* first := gets first_leader in
              let* contains_vulnerability :=
                match first with
                | None => let* _ := modify (set_first_leader leader) in ret true
                | Some _ => ret false
                end in
              let poi_obj :=
                CrashReportPOI func_index (error_summary report)
                  (actual_error_str report) block contains_vulnerability in
              let* n := gets (λ w, length (_pois (self w))) in
              if (n <? 100)%nat then
                let* _ := modify (with_self (append_poi poi_obj)) in
                ret (LoopContinue, leader)
              else ret (LoopContinue, leader)
        end
    | _ => ret (LoopContinue, leader)
    end.

(** [for func, loc in line_matches: ...] *)
Fixpoint walk_frames (R : FunctionResolver) (report : crash_report)
    (block : string * string) (frames : list (string * string))
    (leader : option string) : run walk unit :=
  match frames with
  | [] => ret tt
  | frame :: frames =>
      let* r := frame_step R report block frame leader in
      match r with
      | (LoopBreak, _) => ret tt
      | (LoopContinue, leader) => walk_frames R report block frames leader
      end
  end.

(** [for block in matches: ...] *)
Fixpoint walk_blocks (R : FunctionResolver) (report : crash_report)
    (blocks : list (string * string)) : run walk unit :=
  match blocks with
  | [] => ret tt
  | block :: blocks =>
      let* _ := walk_frames R report block (line_matches block.2) None in
      walk_blocks R report blocks
  end.

(** [CrashPOI.parse_poi_from_crash_report], with the final values of its
    local variables. *)
Definition parse_poi_from_crash_report (R : FunctionResolver) (report : crash_report)
    (st : state) : walk * outcome unit :=
  walk_blocks R report (matches report)
    {| self := st; seen_func_indices := ∅; first_leader := None; submitted := [] |}.

(** [CrashPOI.add_poi] *)
Definition add_poi (R : FunctionResolver) (report : crash_report) (st : state)
    : walk * outcome unit :=
  parse_poi_from_crash_report R report
    {| harness_cfg := harness_cfg st; _pois := _pois st;
       _block_leaders := []; _block_leaders_call_path := ∅ |}.

End CrashPOI.

(** * Coverage-gap ingestion ([oss_fuzz_poi.py]) *)

Module OSSFuzzPOI.

(** [OSSFuzzPOI.get_funcindex_from_json], the same lookup as
    [CrashPOI.get_funcindex_from_backtrace]. *)
Definition get_funcindex_from_json {A} (R : FunctionResolver) (func_name : A)
    (file_path : string) (line_number : Z) : outcome (option string) :=
  keys ← find_by_filename R file_path;
  func_indices ← CrashPOI.indices_at_line R keys line_number;
  let foo := filter (λ x, is_infix file_path x = true) func_indices in
  matching ← find_matching_indices R foo;
  let fixed_indices :=
    elements (list_to_set (map_to_list matching).*2 : gset string) in
  Return (head fixed_indices).

(** [int(v)] for a decoded JSON value *)
Definition py_int (v : json) : outcome Z :=
  match v with
  | JBool b => Return (if b then 1 else 0)%Z
  | JInt z => Return z
  | JFloat q => Return (Z.quot (Qnum q) (Z.pos (Qden q)))
  | JStr s => CrashPOI.int_or_raise s
  | JNull | JContainer => Raise TypeError
  end.

(** [function_obj.get("is_reached", False) is False] *)
Definition is_reached_is_False (function_obj : gmap string json) : bool :=
  match function_obj !! "is_reached" with
  | None | Some (JBool false) => true
  | Some _ => false
  end.

(** [str(Path(v).resolve())]; [resolve] stands for the file system's part. *)
Definition resolved_filename (resolve : string → string) (v : json) : outcome string :=
  match v with
  | JStr s => Return (resolve s)
  | _ => Raise TypeError
  end.

(** The body of the loop of [parse_poi_from_optimal_targets]; the state is
    [self._pois]. *)
Definition target_step (R : FunctionResolver) (resolve : string → string)
    (function_obj : gmap string json) : run (list poi) loop_control :=
  if is_reached_is_False function_obj then ret LoopContinue
  else
    let* filename :=
      lift (resolved_filename resolve
              (default (JStr "") (function_obj !! "function_filename"))) in
    let* start_line :=
      lift (py_int (default (JInt 0) (function_obj !! "source_line_begin"))) in
    let* end_line :=
      lift (py_int (default (JInt 0) (function_obj !! "source_line_end"))) in
    if bool_decide (start_line = 0%Z) || bool_decide (end_line = 0%Z) then
      ret LoopContinue
    else
      let* func_index :=
        lift (get_funcindex_from_json R
                (default (JStr "") (function_obj !! "raw_function_name"))
                filename start_line) in
      match func_index with
      | None => ret LoopContinue
      | Some func_index =>
          let* n := gets length in
          if (100 <? n)%nat then ret LoopBreak
          else
            let* _ := modify (λ pois, pois ++
              [CoverageGapPOI func_index
                 (default (JInt 0) (function_obj !! "runtime_coverage_percent"))
                 (default (JInt 0) (function_obj !! "accummulated_complexity"))]) in
            ret LoopContinue
      end.

(** [OSSFuzzPOI.parse_poi_from_optimal_targets], over
    [optimal_targets.get("functions", [])] *)
Fixpoint parse_poi_from_optimal_targets (R : FunctionResolver)
    (resolve : string → string) (functions : list (gmap string json))
    : run (list poi) unit :=
  match functions with
  | [] => ret tt
  | function_obj :: functions =>
      let* r := target_step R resolve function_obj in
      match r with
      | LoopBreak => ret tt
      | LoopContinue => parse_poi_from_optimal_targets R resolve functions
      end
  end.

(** [OSSFuzzPOI.add_poi] for a [.json] target file, from the decoded report
    on: [functions] is the value of its ["functions"] key, if any. *)
Definition add_poi (R : FunctionResolver) (resolve : string → string)
    (functions : option (list (gmap string json))) : run (list poi) unit :=
  parse_poi_from_optimal_targets R resolve (default [] functions).

End OSSFuzzPOI.

(** ** CodeQL reports ([parse_poi_from_codeql_report]) *)

Module CodeQL.

(** An entry of [self._pois] as this pipeline meets the catalog: an entry of
    one of the other pipelines, or one of its own. *)
Inductive catalog_entry : Type :=
  | OtherPOI (p : poi)
  | CodeQLPOI (function_index_key : string) (vulnerability_name : json).

(** [poi['function_index_key']] *)
Definition entry_key (e : catalog_entry) : string :=
  match e with
  | OtherPOI p => function_index_key p
  | CodeQLPOI k _ => k
  end.

(** A vulnerability of the report as the code reads it:
    [vulnerability.get('name')] ([None] when absent) and the value of its
    ['locations'] key, if any, a list of mappings. *)
Record vulnerability : Type := {
  name : json;
  locations : option (list (gmap string json));
}.

(** [str(v)] for a decoded value; [render] stands for the text of a number
    or of a container. *)
Definition py_str (render : json → string) (v : json) : string :=
  match v with
  | JStr s => s
  | JNull => "None"
  | JBool true => "True"
  | JBool false => "False"
  | v => render v
  end.

(** [a <= v] and [v <= b] for an [int] and a decoded value: numbers compare
    by value, anything else raises [TypeError]. *)
Definition int_le_value (a : Z) (v : json) : outcome bool :=
  match v with
  | JInt z => Return (a <=? z)%Z
  | JBool b => Return (a <=? (if b then 1 else 0))%Z
  | JFloat q => Return (Qle_bool (inject_Z a) q)
  | JNull | JStr _ | JContainer => Raise TypeError
  end.

Definition value_le_int (v : json) (b : Z) : outcome bool :=
  match v with
  | JInt z => Return (z <=? b)%Z
  | JBool c => Return ((if c then 1 else 0) <=? b)%Z
  | JFloat q => Return (Qle_bool q (inject_Z b))
  | JNull | JStr _ | JContainer => Raise TypeError
  end.

(** [function_index.start_line <= line_number <= function_index.end_line] *)
Definition spans (fi : FunctionIndex) (line_number : json) : outcome bool :=
  match int_le_value (start_line fi) line_number with
  | Return true => value_le_int line_number (end_line fi)
  | Return false => Return false
  | Raise e => Raise e
  end.

(** The scan of [get_funcindex_from_json] over the keys of one file, for a
    line number that is the decoded value as it stands in the report. *)
Fixpoint indices_at_value (R : FunctionResolver) (keys : list string)
    (line_number : json) : outcome (list string) :=
  match keys with
  | [] => Return []
  | index_key :: keys =>
      function_index ← get R index_key;
      match function_index with
      | None => indices_at_value R keys line_number
      | Some fi =>
          inside ← spans fi line_number;
          rest ← indices_at_value R keys line_number;
          Return (if inside : bool then index_key :: rest else rest)
      end
  end.

(** [get_funcindex_from_json("", file_path, line_number)] on such a value *)
Definition get_funcindex_from_value (R : FunctionResolver) (file_path : string)
    (line_number : json) : outcome (option string) :=
  keys ← find_by_filename R file_path;
  func_indices ← indices_at_value R keys line_number;
  let foo := filter (λ x, is_infix file_path x = true) func_indices in
  matching ← find_matching_indices R foo;
  let fixed_indices :=
    elements (list_to_set (map_to_list matching).*2 : gset string) in
  Return (head fixed_indices).

(** [OSSFuzzPOI.get_funcindex_from_codeql_report] *)
Definition get_funcindex_from_codeql_report (R : FunctionResolver)
    (render : json → string) (file start_line : json) : outcome (option string) :=
  get_funcindex_from_value R (py_str render file) start_line.

(** The catalog together with the local [seen_indices]. *)
Record scan : Type := {
  _pois : list catalog_entry;
  seen_indices : gset string;
}.

Definition record_poi (e : catalog_entry) (s : scan) : scan :=
  {| _pois := _pois s ++ [e];
     seen_indices := {[entry_key e]} ∪ seen_indices s |}.

(** The body of the loop over the locations of one vulnerability. *)
Definition location_step (R : FunctionResolver) (render : json → string)
    (vulnerability_name : json) (location : gmap string json)
    : run scan loop_control :=
  let* func_index :=
    lift (get_funcindex_from_codeql_report R render
            (default JNull (location !! "file"))
            (default JNull (location !! "startLine"))) in
  let* seen := gets seen_indices in
  let* _ :=
    match func_index with
    | Some func_index =>
        if negb (bool_decide (func_index = ""))
           && negb (bool_decide (func_index ∈ seen))
        then modify (record_poi (CodeQLPOI func_index vulnerability_name))
        else ret tt
    | None => ret tt
    end in
  let* n := gets (λ s, length (_pois s)) in
  if (100 <? n)%nat then ret LoopBreak else ret LoopContinue.

(** [for location in vulnerability['locations']: ...] *)
Fixpoint walk_locations (R : FunctionResolver) (render : json → string)
    (vulnerability_name : json) (locs : list (gmap string json)) : run scan unit :=
  match locs with
  | [] => ret tt
  | location :: locs =>
      let* r := location_step R render vulnerability_name location in
      match r with
      | LoopBreak => ret tt
      | LoopContinue => walk_locations R render vulnerability_name locs
      end
  end.

(** [for vulnerability in codeql_report['vulnerabilities']: ...]; the
    [break] leaves the loop over the locations only. *)
Fixpoint walk_vulnerabilities (R : FunctionResolver) (render : json → string)
    (vulnerabilities : list vulnerability) : run scan unit :=
  match vulnerabilities with
  | [] => ret tt
  | vulnerability :: vulnerabilities =>
      let* _ :=
        match locations vulnerability with
        | Some locs => walk_locations R render (name vulnerability) locs
        | None => ret tt
        end in
      walk_vulnerabilities R render vulnerabilities
  end.

(** [OSSFuzzPOI.parse_poi_from_codeql_report], from the decoded report on:
    [vulnerabilities] is the value of its ['vulnerabilities'] key, if any.
    The result is [self._pois] afterwards and the outcome. *)
Definition parse_poi_from_codeql_report (R : FunctionResolver)
    (render : json → string) (vulnerabilities : option (list vulnerability))
    (pois : list catalog_entry) : list catalog_entry * outcome unit :=
  match vulnerabilities with
  | Some vulnerabilities =>
      let r := walk_vulnerabilities R render vulnerabilities
                 {| _pois := pois;
                    seen_indices := list_to_set (entry_key <$> pois) |} in
      (_pois r.1, r.2)
  | None => (pois, Return tt)
  end.

End CodeQL.

(** * Sample inputs *)

(** The call graph of the end-to-end scenario, as the YAML mapping. *)
Definition scenario_yaml : gmap string (list string) :=
  list_to_map [("LLVMFuzzerTestOneInput", ["a"]); ("a", ["b"; "c"]);
               ("b", ["sink"]); ("c", [])].

(** The key and the entry of the one function of a small store,
    [parse_header], kept in [/src/lib/parse.c] at lines 10 to 60. *)
Definition parse_header_key : string := "/src/lib/parse.c:10::parse_header".

Definition parse_header_index : FunctionIndex :=
  {| funcname := "parse_header"; start_line := 10; end_line := 60;
     is_generated_during_build := false |}.

(** A resolver whose location search still proposes the key of an entry that
    can no longer be fetched. *)
Definition stale_resolver : FunctionResolver :=
  {| SourceLocation := string;
     function_index_to_source_location := λ key _, key;
     find_matching_index := λ _, Raise ResolverError;
     get := λ _, Raise KeyError;
     find_by_filename := λ _, Return [];
     find_matching_indices := λ _, Return ∅;
     resolve_source_location := λ _, Return [(parse_header_key, 1%Z)] |}.

(** A resolver whose fuzzy matcher finds the key of an entry that cannot be
    fetched. *)
Definition unfetchable_resolver : FunctionResolver :=
  {| SourceLocation := string;
     function_index_to_source_location := λ key _, key;
     find_matching_index := λ _, Return (Some parse_header_key);
     get := λ _, Raise KeyError;
     find_by_filename := λ _, Return [];
     find_matching_indices := λ _, Return ∅;
     resolve_source_location := λ _, Return [] |}.

(** A resolver over the one-function store: every key of the file is
    proposed, and the focus-scope matcher keeps each candidate. *)
Definition parse_header_resolver : FunctionResolver :=
  {| SourceLocation := string;
     function_index_to_source_location := λ key _, key;
     find_matching_index := λ _, Raise ResolverError;
     get := λ key, if bool_decide (key = parse_header_key)
                   then Return (Some parse_header_index) else Raise KeyError;
     find_by_filename := λ _, Return [parse_header_key];
     find_matching_indices := λ keys, Return (list_to_map ((λ k, (k, k)) <$> keys));
     resolve_source_location := λ _, Return [] |}.

(** An entry of a coverage-gap report for that function: reached, with valid
    lines. *)
Definition parse_header_target : gmap string json :=
  list_to_map [("raw_function_name", JStr "parse_header");
               ("is_reached", JBool true);
               ("function_filename", JStr "/src/lib/parse.c");
               ("source_line_begin", JInt 10); ("source_line_end", JInt 60);
               ("runtime_coverage_percent", JFloat (25 # 2));
               ("accummulated_complexity", JInt 7)].

(** A crash report with one stack-trace block whose first two frames lie in
    the same function. *)
Definition two_frame_block : string * string :=
  ("", "    #0 0x55d1 in parse_header /src/lib/parse.c:42:7
    #1 0x55d9 in parse_header /src/lib/parse.c:50:3
    #2 0x55e2 in LLVMFuzzerTestOneInput /src/fuzz/fuzz.c:12:3").

Definition two_frame_report : CrashPOI.crash_report :=
  {| CrashPOI.matches := [two_frame_block];
     CrashPOI.error_summary :=
       Some "SUMMARY: AddressSanitizer: heap-buffer-overflow /src/lib/parse.c:42:7";
     CrashPOI.actual_error_str :=
       "==1==ERROR: AddressSanitizer: heap-buffer-overflow" |}.

(** A block whose only frame gives a line without a column, the same frame
    with a column, and the reports that hold them. *)
Definition frame_without_column : string * string :=
  ("", "    #0 0x55d1 in parse_header /src/lib/parse.c:42").

Definition frame_with_column : string * string :=
  ("", "    #0 0x55d1 in parse_header /src/lib/parse.c:42:7").

Definition report_of_block (block : string * string) : CrashPOI.crash_report :=
  {| CrashPOI.matches := [block];
     CrashPOI.error_summary := None;
     CrashPOI.actual_error_str := "" |}.

(** A [CrashPOI] object before any ingestion. *)
Definition fresh_crash_poi : CrashPOI.state :=
  {| CrashPOI.harness_cfg := ∅; CrashPOI._pois := [];
     CrashPOI._block_leaders := []; CrashPOI._block_leaders_call_path := ∅ |}.

(** A resolver over a store with one function per file, keyed and named by
    the file's name and spanning its first thousand lines. *)
Definition per_file_resolver : FunctionResolver :=
  {| SourceLocation := string;
     function_index_to_source_location := λ key _, key;
     find_matching_index := λ _, Raise ResolverError;
     get := λ key, Return (Some {| funcname := key; start_line := 1;
                                   end_line := 1000;
                                   is_generated_during_build := false |});
     find_by_filename := λ file, Return [file];
     find_matching_indices := λ keys, Return (list_to_map ((λ k, (k, k)) <$> keys));
     resolve_source_location := λ _, Return [] |}.

Definition newline : string := String "010" "".

(** The frame [#i 0x55d1 in func file:line:1] of a backtrace. *)
Definition frame_line (i : nat) (func file : string) (line : nat) : string :=
  "    #" +:+ pretty i +:+ " 0x55d1 in " +:+ func +:+ " " +:+ file +:+ ":"
    +:+ pretty line +:+ ":1" +:+ newline.

(** A block of 102 frames: a hundred frames in a hundred files, then two
    frames in one more file. *)
Definition long_block : string * string :=
  ("", String.concat ""
         ((λ i, frame_line i ("f" +:+ pretty i) ("/src/lib/f" +:+ pretty i +:+ ".c") 3)
            <$> seq 0 100)
       +:+ frame_line 100 "g" "/src/lib/g.c" 7
       +:+ frame_line 101 "g" "/src/lib/g.c" 9).

(** A block whose second and third frames lie in one function, below a
    frame in another. *)
Definition three_frame_block : string * string :=
  ("", "    #0 0x55d1 in alloc_buf /src/lib/alloc.c:5:1
    #1 0x55d9 in parse_header /src/lib/parse.c:42:7
    #2 0x55e2 in parse_header /src/lib/parse.c:50:3").

(** A location of a CodeQL report inside [parse_header], and a catalog of
    150 entries of another function. *)
Definition parse_header_location : gmap string json :=
  list_to_map [("file", JStr "/src/lib/parse.c"); ("startLine", JInt 42)].

Definition crowded_catalog : list CodeQL.catalog_entry :=
  replicate 150
    (CodeQL.OtherPOI (CoverageGapPOI "/src/lib/alloc.c:5::alloc_buf" (JInt 0) (JInt 0))).

(** * Notions used in the statements *)

(** [p] is the catalog entry that [parse_poi_from_optimal_targets] builds
    from [function_obj]: the entry is not flagged unreached, its two lines
    are not zero, and [p] carries its coverage and complexity. *)
Definition converted_from (function_obj : gmap string json) (p : poi) : Prop :=
  OSSFuzzPOI.is_reached_is_False function_obj = false
  ∧ (∃ start_line,
       OSSFuzzPOI.py_int (default (JInt 0) (function_obj !! "source_line_begin"))
       = Return start_line ∧ start_line ≠ 0%Z)
  ∧ (∃ end_line,
       OSSFuzzPOI.py_int (default (JInt 0) (function_obj !! "source_line_end"))
       = Return end_line ∧ end_line ≠ 0%Z)
  ∧ p = CoverageGapPOI (function_index_key p)
          (default (JInt 0) (function_obj !! "runtime_coverage_percent"))
          (default (JInt 0) (function_obj !! "accummulated_complexity")).

(** The text is ASCII: every character lies below 128. *)
Definition is_ascii_text (s : string) : bool :=
  forallb (λ c, nat_of_ascii c <? 128) (list_ascii_of_string s).

(** A non-empty run of decimal digits, as a line or column number is
    printed. *)
Definition is_number (s : string) : Prop :=
  s ≠ "" ∧ Forall (λ c, is_digit c = true) (list_ascii_of_string s).

(** The frame names neither the fuzz entry nor the process entry, at which
    the walk of a block stops. *)
Definition walks_on (func : string) : Prop :=
  is_infix "LLVMFuzzerTestOneInput" func = false
  ∧ is_infix "__libc_start_main" func = false.

Definition is_return {A} (o : outcome A) : bool :=
  match o with
  | Return _ => true
  | Raise _ => false
  end.

(** The invariant of the parsing loop over a catalog that held [pois0] when
    the ingestion began: the entries appended since have pairwise distinct
    identities, all of them seen; an identity that a submitted query resolves
    to is seen; the catalog stays within 100 entries.  While no exception
    has been raised ([complete]), every seen identity has its entry unless
    the catalog is full. *)
Definition crash_inv (R : FunctionResolver) (pois0 : list poi) (complete : bool)
    (w : CrashPOI.walk) : Prop :=
  ∃ new,
    CrashPOI._pois (CrashPOI.self w) = pois0 ++ new
    ∧ NoDup (function_index_key <$> new)
    ∧ (∀ p, p ∈ new → function_index_key p ∈ CrashPOI.seen_func_indices w)
    ∧ (∀ func file line k,
         (func, file, line) ∈ CrashPOI.submitted w →
         CrashPOI.get_funcindex_from_backtrace R func file line = Return (Some k) →
         k ∈ CrashPOI.seen_func_indices w)
    ∧ (length pois0 ≤ 100 → length (CrashPOI._pois (CrashPOI.self w)) ≤ 100)
    ∧ (complete = true →
       ∀ k, k ∈ CrashPOI.seen_func_indices w →
         k ∈ function_index_key <$> new
         ∨ 100 ≤ length (CrashPOI._pois (CrashPOI.self w))).

(** [n] lies on a path from [source] to [target] that repeats no node. *)
Definition on_simple_path (cg : DiGraph) (source target n : string) : Prop :=
  ∃ l, is_chain cg source l ∧ NoDup (source :: l)
       ∧ last (source :: l) = Some target ∧ n ∈ source :: l.

(** [caller] calls [callee] in the graph. *)
Definition calls (cg : DiGraph) (caller callee : string) : Prop :=
  has_edge cg caller callee = true.

(** [poi["function_contains_vulnerability"]], for the entries that have the
    key. *)
Definition contains_vulnerability (p : poi) : bool :=
  match p with
  | CrashReportPOI _ _ _ _ flag => flag
  | CoverageGapPOI _ _ _ => false
  end.

(** The invariant of the parsing loop on the entries appended since the
    ingestion began. *)
Definition entries_inv (R : FunctionResolver) (report : CrashPOI.crash_report)
    (st : CrashPOI.state) (w : CrashPOI.walk) : Prop :=
  ∃ new,
    CrashPOI._pois (CrashPOI.self w) = CrashPOI._pois st ++ new
    ∧ (CrashPOI.first_leader w = None → new = [])
    ∧ (new = [] → is_Some (CrashPOI.first_leader w) → 100 ≤ length (CrashPOI._pois st))
    ∧ (length new ≤ 100 - length (CrashPOI._pois st))
    ∧ (∀ i p, new !! i = Some p → contains_vulnerability p = bool_decide (i = 0))
    ∧ (∀ p, p ∈ new →
         ∃ block func file line flag,
           p = CrashReportPOI (function_index_key p) (CrashPOI.error_summary report)
                 (CrashPOI.actual_error_str report) block flag
           ∧ block ∈ CrashPOI.matches report
           ∧ func ∈ (line_matches block.2).*1
           ∧ (func, file, line) ∈ CrashPOI.submitted w
           ∧ CrashPOI.get_funcindex_from_backtrace R func file line
             = Return (Some (function_index_key p)))
    ∧ CrashPOI.harness_cfg (CrashPOI.self w) = CrashPOI.harness_cfg st
    ∧ dom (CrashPOI._block_leaders_call_path (CrashPOI.self w))
      = list_to_set (CrashPOI._block_leaders (CrashPOI.self w)).

(** The invariant of the CodeQL ingestion over a catalog that held [pois0]:
    the local set holds the keys of the catalog; the entries appended since
    have pairwise distinct, non-empty keys that no earlier entry has, and
    each is built from a location of a vulnerability of the report. *)
Definition codeql_inv (R : FunctionResolver) (render : json → string)
    (vulnerabilities : list CodeQL.vulnerability)
    (pois0 : list CodeQL.catalog_entry) (s : CodeQL.scan) : Prop :=
  ∃ new,
    CodeQL._pois s = pois0 ++ new
    ∧ CodeQL.seen_indices s = list_to_set (CodeQL.entry_key <$> CodeQL._pois s)
    ∧ NoDup (CodeQL.entry_key <$> new)
    ∧ ∀ e, e ∈ new →
        CodeQL.entry_key e ≠ ""
        ∧ (CodeQL.entry_key e ∉ CodeQL.entry_key <$> pois0)
        ∧ ∃ v locs location,
            v ∈ vulnerabilities ∧ CodeQL.locations v = Some locs ∧ location ∈ locs
            ∧ e = CodeQL.CodeQLPOI (CodeQL.entry_key e) (CodeQL.name v)
            ∧ CodeQL.get_funcindex_from_codeql_report R render
                (default JNull (location !! "file"))
                (default JNull (location !! "startLine"))
              = Return (Some (CodeQL.entry_key e)).

(** The texts a pattern matches, capture groups left aside. *)
Fixpoint matches_items (r : list re_item) (s : list ascii) : Prop :=
  match r with
  | [] => s = []
  | One cl :: r' =>
      ∃ c s', s = c :: s' ∧ in_class cl c = true ∧ matches_items r' s'
  | Plus _ cl :: r' =>
      ∃ cs s', s = cs ++ s' ∧ cs ≠ []
               ∧ Forall (λ c, in_class cl c = true) cs ∧ matches_items r' s'
  | GroupOpen :: r' | GroupClose :: r' => matches_items r' s
  end.

(** The pattern has no capture group. *)
Definition group_free (r : list re_item) : Prop :=
  Forall (λ i, i ≠ GroupOpen ∧ i ≠ GroupClose) r.

(** [name] is the name of a function that the lookup gave for a frame query
    recorded in [queries]. *)
Definition resolved_name (R : FunctionResolver) (queries : list (string * string * Z))
    (name : string) : Prop :=
  ∃ func file line k,
    (func, file, line) ∈ queries
    ∧ CrashPOI.get_funcindex_from_backtrace R func file line = Return (Some k)
    ∧ CrashPOI.funcname_of R k = Return name.

(** * Properties *)

(** ** Call graphs *)

Lemma has_node_true (cg : DiGraph) n : has_node cg n = true ↔ is_Some (cg !! n).
Proof. unfold has_node. by rewrite bool_decide_eq_true. Qed.

Lemma has_node_false (cg : DiGraph) n : has_node cg n = false ↔ cg !! n = None.
Proof.
  unfold has_node. rewrite bool_decide_eq_false, eq_None_not_Some. done.
Qed.

Lemma has_edge_true (cg : DiGraph) u v :
  has_edge cg u v = true ↔ v ∈ successors cg u.
Proof. unfold has_edge. by rewrite bool_decide_eq_true. Qed.

Lemma elem_of_nodes (cg : DiGraph) n : n ∈ nodes cg ↔ is_Some (cg !! n).
Proof.
  unfold nodes. rewrite list_elem_of_fmap. split.
  - intros [[k l] [-> Hin]]. apply elem_of_map_to_list in Hin. by exists l.
  - intros [l Hl]. exists (n, l). split; [done|]. by apply elem_of_map_to_list.
Qed.

Lemma NoDup_nodes (cg : DiGraph) : NoDup (nodes cg).
Proof. apply NoDup_fst_map_to_list. Qed.

Lemma length_nodes (cg : DiGraph) : length (nodes cg) = size cg.
Proof. unfold nodes. by rewrite length_fmap, length_map_to_list. Qed.

Lemma elem_of_successors_node (cg : DiGraph) u v :
  v ∈ successors cg u → is_Some (cg !! u).
Proof.
  unfold successors. destruct (cg !! u) eqn:E; [eauto|]. cbn. by intros ?%elem_of_nil.
Qed.

Lemma elem_of_predecessors (cg : DiGraph) u v :
  u ∈ predecessors cg v ↔ v ∈ successors cg u.
Proof.
  unfold predecessors. rewrite list_elem_of_filter, elem_of_nodes.
  split; [by intros [? _]|]. intros H. split; [done|].
  by eapply elem_of_successors_node.
Qed.

Lemma successors_add_node n (cg : DiGraph) x :
  successors (add_node n cg) x = successors cg x.
Proof.
  unfold add_node, successors. destruct (cg !! n) eqn:E; [done|].
  destruct (decide (n = x)) as [->|Hne].
  - by rewrite lookup_insert_eq, E.
  - by rewrite lookup_insert_ne.
Qed.

Lemma node_add_node n (cg : DiGraph) x :
  is_Some (add_node n cg !! x) ↔ is_Some (cg !! x) ∨ x = n.
Proof.
  unfold add_node. destruct (cg !! n) eqn:E.
  - split; [by left|]. intros [?| ->]; [done|]. by rewrite E.
  - destruct (decide (n = x)) as [->|Hne].
    + rewrite lookup_insert_eq. split; [by right|]. by eauto.
    + rewrite lookup_insert_ne by done. split; [by left|]. by intros [?|?].
Qed.

Lemma edge_add_edge u v (cg : DiGraph) x y :
  y ∈ successors (add_edge u v cg) x ↔ y ∈ successors cg x ∨ (x = u ∧ y = v).
Proof.
  unfold add_edge. case_bool_decide as Hin.
  - rewrite !successors_add_node in *. split; [by left|].
    intros [?|[-> ->]]; done.
  - rewrite !successors_add_node in *. unfold successors at 1.
    destruct (decide (u = x)) as [->|Hne].
    + rewrite lookup_insert_eq. cbn. rewrite elem_of_app, list_elem_of_singleton.
      naive_solver.
    + rewrite lookup_insert_ne by done. fold (successors (add_node v (add_node u cg)) x).
      rewrite !successors_add_node. naive_solver.
Qed.

Lemma node_add_edge u v (cg : DiGraph) x :
  is_Some (add_edge u v cg !! x) ↔ is_Some (cg !! x) ∨ x = u ∨ x = v.
Proof.
  unfold add_edge. case_bool_decide as Hin.
  - rewrite !node_add_node. naive_solver.
  - destruct (decide (u = x)) as [->|Hne].
    + rewrite lookup_insert_eq. split; [by eauto|]. by eauto.
    + rewrite lookup_insert_ne by done. rewrite !node_add_node. naive_solver.
Qed.

Lemma edge_add_values key (values : list string) (cg : DiGraph) x y :
  y ∈ successors (foldl (λ cg value, add_edge key value cg) cg values) x
  ↔ y ∈ successors cg x ∨ (x = key ∧ y ∈ values).
Proof.
  revert cg. induction values as [|v values IH]; intros cg; cbn.
  - rewrite elem_of_nil. naive_solver.
  - rewrite IH, edge_add_edge, elem_of_cons. naive_solver.
Qed.

Lemma node_add_values key (values : list string) (cg : DiGraph) x :
  is_Some (foldl (λ cg value, add_edge key value cg) cg values !! x)
  ↔ is_Some (cg !! x) ∨ (x = key ∧ values ≠ []) ∨ x ∈ values.
Proof.
  revert cg. induction values as [|v values IH]; intros cg; cbn.
  - rewrite elem_of_nil. naive_solver.
  - rewrite IH, node_add_edge, elem_of_cons.
    destruct values; naive_solver.
Qed.

Lemma edge_add_entries (es : list (string * list string)) (cg : DiGraph) x y :
  y ∈ successors (foldl POI.add_callees cg es) x
  ↔ y ∈ successors cg x ∨ ∃ l, (x, l) ∈ es ∧ y ∈ l.
Proof.
  revert cg. induction es as [|[k l] es IH]; intros cg; cbn.
  - setoid_rewrite elem_of_nil. naive_solver.
  - rewrite IH. unfold POI.add_callees. cbn. rewrite edge_add_values.
    setoid_rewrite elem_of_cons. naive_solver.
Qed.

Lemma node_add_entries (es : list (string * list string)) (cg : DiGraph) x :
  is_Some (foldl POI.add_callees cg es !! x)
  ↔ is_Some (cg !! x) ∨ (∃ l, (x, l) ∈ es ∧ l ≠ []) ∨ (∃ k l, (k, l) ∈ es ∧ x ∈ l).
Proof.
  revert cg. induction es as [|[k l] es IH]; intros cg; cbn.
  - setoid_rewrite elem_of_nil. naive_solver.
  - rewrite IH. unfold POI.add_callees. cbn. rewrite node_add_values.
    setoid_rewrite elem_of_cons. naive_solver.
Qed.

Lemma edge_gen_callgraph (obj : gmap string (list string)) x y :
  y ∈ successors (POI.gen_callgraph_from_file obj) x
  ↔ ∃ l, obj !! x = Some l ∧ y ∈ l.
Proof.
  unfold POI.gen_callgraph_from_file. rewrite edge_add_entries.
  setoid_rewrite elem_of_map_to_list. unfold successors at 1.
  rewrite lookup_empty. cbn. rewrite elem_of_nil. naive_solver.
Qed.

Lemma node_gen_callgraph (obj : gmap string (list string)) x :
  is_Some (POI.gen_callgraph_from_file obj !! x)
  ↔ (∃ l, obj !! x = Some l ∧ l ≠ []) ∨ (∃ k l, obj !! k = Some l ∧ x ∈ l).
Proof.
  unfold POI.gen_callgraph_from_file. rewrite node_add_entries.
  setoid_rewrite elem_of_map_to_list. rewrite lookup_empty.
  split; [|by eauto]. intros [[? [=]]|?]; done.
Qed.

(** C10.  The graph built from a caller-to-callees mapping has the edge
    (caller, callee) exactly when the callee is in the caller's list; a
    function mapped to the empty list is a node only as the callee of another
    function, and is absent from the graph when no list mentions it. *)
Theorem gen_callgraph_from_file_edges (obj : gmap string (list string)) :
  (∀ caller callee,
     has_edge (POI.gen_callgraph_from_file obj) caller callee = true
     ↔ ∃ callees, obj !! caller = Some callees ∧ callee ∈ callees)
  ∧ (∀ f, obj !! f = Some [] →
       has_node (POI.gen_callgraph_from_file obj) f = true →
       ∃ caller callees, caller ≠ f ∧ obj !! caller = Some callees ∧ f ∈ callees)
  ∧ (∀ f, obj !! f = Some [] →
       (∀ caller callees, obj !! caller = Some callees → f ∉ callees) →
       has_node (POI.gen_callgraph_from_file obj) f = false).
Proof.
  split; [|split].
  - intros caller callee. by rewrite has_edge_true, edge_gen_callgraph.
  - intros f Hf [[l [Hl Hne]]|(k & l & Hk & Hin)]%has_node_true%node_gen_callgraph.
    + congruence.
    + exists k, l. split; [|done]. intros ->. rewrite Hf in Hk.
      injection Hk as <-. by apply elem_of_nil in Hin.
  - intros f Hf Hno. apply not_true_is_false.
    intros [[l [Hl Hne]]|(k & l & Hk & Hin)]%has_node_true%node_gen_callgraph.
    + congruence.
    + by eapply Hno.
Qed.

(** ** Simple paths *)

Lemma closed_gen_callgraph obj : closed (POI.gen_callgraph_from_file obj).
Proof.
  intros u v (l & Hl & Hin)%edge_gen_callgraph.
  apply node_gen_callgraph. right. eauto.
Qed.

Lemma is_chain_suffix cg u l1 x l2 :
  is_chain cg u (l1 ++ x :: l2) → is_chain cg x l2.
Proof.
  revert u. induction l1 as [|y l1 IH]; intros u; cbn.
  - by intros [_ ?].
  - intros [_ ?]. by eapply IH.
Qed.

Lemma is_chain_nodes cg u l :
  closed cg → is_chain cg u l → ∀ x, x ∈ l → is_Some (cg !! x).
Proof.
  intros Hcl. revert u. induction l as [|v l IH]; intros u; cbn.
  - by intros _ x ?%elem_of_nil.
  - intros [Huv Hl] x [->|Hx]%elem_of_cons; [by eapply Hcl|by eapply IH].
Qed.

(** Reachability is witnessed by a path without repeated nodes. *)
Lemma reachable_simple_chain cg u t :
  rtc (λ a b, has_edge cg a b = true) u t →
  ∃ l, is_chain cg u l ∧ NoDup (u :: l) ∧ last (u :: l) = Some t.
Proof.
  induction 1 as [x|x y z Hxy _ (l & Hch & Hnd & Hlast)].
  - exists []. split; [done|]. split; [|done]. apply NoDup_singleton.
  - apply has_edge_true in Hxy.
    destruct (decide (x ∈ y :: l)) as [Hin|Hnin].
    + apply list_elem_of_split in Hin as (l1 & l2 & Heq).
      exists l2. split; [|split].
      * destruct l1 as [|y' l1]; simplify_eq/=; [done|].
        by eapply is_chain_suffix.
      * rewrite Heq in Hnd. by apply NoDup_app in Hnd as (_ & _ & ?).
      * rewrite Heq in Hlast. by rewrite last_app_cons in Hlast.
    + exists (y :: l). split; [done|]. split; [by constructor|].
      by rewrite last_cons_cons.
Qed.

Lemma simple_chain_length cg u l :
  closed cg → is_Some (cg !! u) → is_chain cg u l → NoDup (u :: l) →
  length l ≤ size cg - 1.
Proof.
  intros Hcl Hu Hch Hnd.
  assert (length (u :: l) ≤ length (nodes cg)) as Hlen.
  { apply submseteq_length, NoDup_submseteq; [done|].
    intros x [->|Hx]%elem_of_cons; apply elem_of_nodes; [done|].
    by eapply is_chain_nodes. }
  rewrite length_nodes in Hlen. cbn in Hlen. lia.
Qed.

Lemma simple_paths_visit_unfold fuel cg targets path next :
  simple_paths_visit fuel cg targets path next =
  (if bool_decide (next ∈ targets) then [path ++ [next]] else []) ++
  match fuel with
  | O => []
  | S fuel' =>
      if forallb (λ t, bool_decide (t ∈ path ++ [next])) targets then []
      else filter (λ w, w ∉ path ++ [next]) (successors cg next)
             ≫= simple_paths_visit fuel' cg targets (path ++ [next])
  end.
Proof. by destruct fuel. Qed.

(** The search reports every path without repeated nodes that fits the depth
    bound. *)
Lemma simple_paths_visit_complete cg t l : ∀ fuel path next,
  is_chain cg next l → last (next :: l) = Some t → NoDup (path ++ next :: l) →
  length l ≤ fuel →
  path ++ next :: l ∈ simple_paths_visit fuel cg [t] path next.
Proof.
  induction l as [|w l IH]; intros fuel path next Hch Hlast Hnd Hlen.
  - cbn in Hlast. injection Hlast as ->.
    rewrite simple_paths_visit_unfold, bool_decide_eq_true_2 by apply list_elem_of_here.
    apply elem_of_app. left. apply list_elem_of_here.
  - destruct fuel as [|fuel]; [cbn in Hlen; lia|].
    destruct Hch as [Hw Hch]. rewrite last_cons_cons in Hlast.
    assert (t ∈ w :: l) as Ht by (by eapply last_Some_elem_of).
    assert (path ++ next :: w :: l = (path ++ [next]) ++ w :: l) as Heq
      by (by rewrite <-app_assoc).
    rewrite Heq in Hnd |- *.
    assert (t ∉ path ++ [next]) as Hnt.
    { intros Hin. apply NoDup_app in Hnd as (_ & Hdisj & _). by eapply Hdisj. }
    assert (w ∉ path ++ [next]) as Hnw.
    { intros Hin. apply NoDup_app in Hnd as (_ & Hdisj & _). eapply Hdisj; [done|].
      apply list_elem_of_here. }
    rewrite simple_paths_visit_unfold. apply elem_of_app. right.
    replace (forallb _ [t]) with false; last first.
    { cbn. by rewrite bool_decide_eq_false_2. }
    apply list_elem_of_bind. exists w. split.
    + apply IH; try done. cbn in Hlen. lia.
    + by apply list_elem_of_filter.
Qed.

(** Every reported path runs from the start of [path ++ [next]] through
    nodes of the graph. *)
Lemma simple_paths_visit_nodes cg targets : closed cg → ∀ fuel path next p,
  p ∈ simple_paths_visit fuel cg targets path next →
  ∀ x, x ∈ p → x ∈ path ∨ x = next ∨ is_Some (cg !! x).
Proof.
  intros Hcl. induction fuel as [|fuel IH]; intros path next p;
    rewrite simple_paths_visit_unfold, elem_of_app.
  - intros [Hp|Hp%elem_of_nil]; [|done]. case_bool_decide; [|by apply elem_of_nil in Hp].
    apply list_elem_of_singleton in Hp as ->.
    intros x [?| ->%list_elem_of_singleton]%elem_of_app; eauto.
  - intros [Hp|Hp].
    + case_bool_decide; [|by apply elem_of_nil in Hp].
      apply list_elem_of_singleton in Hp as ->.
      intros x [?| ->%list_elem_of_singleton]%elem_of_app; eauto.
    + destruct (forallb _ targets); [by apply elem_of_nil in Hp|].
      apply list_elem_of_bind in Hp as (w & Hp & [_ Hw]%list_elem_of_filter).
      intros x Hx. destruct (IH _ _ _ Hp x Hx) as [Hin|[ ->|?]]; [|by eauto..].
      apply elem_of_app in Hin as [?| ->%list_elem_of_singleton]; eauto.
Qed.

Lemma elem_of_concat {A} (x : A) (ls : list (list A)) :
  x ∈ concat ls ↔ ∃ l, l ∈ ls ∧ x ∈ l.
Proof.
  induction ls as [|l ls IH]; cbn.
  - rewrite elem_of_nil. split; [done|]. by intros (? & ?%elem_of_nil & _).
  - rewrite elem_of_app, IH. setoid_rewrite elem_of_cons. naive_solver.
Qed.

(** ** The fallback search terminates *)

Lemma size_difference_add (X seen : gset string) p :
  p ∈ X → p ∉ seen → size (X ∖ seen) = S (size (X ∖ ({[p]} ∪ seen))).
Proof.
  intros HX Hseen.
  assert (X ∖ seen = {[p]} ∪ X ∖ ({[p]} ∪ seen)) as ->.
  { apply set_eq. intros x. rewrite elem_of_union, !elem_of_difference,
      elem_of_union, elem_of_singleton.
    destruct (decide (x = p)) as [->|]; naive_solver. }
  rewrite size_union, size_singleton; [done|]. set_solver.
Qed.

Lemma foldl_push_unseen_measure (X : gset string) preds : ∀ seen worklist,
  (∀ p, p ∈ preds → p ∈ X) →
  length (foldl POI.push_unseen (seen, worklist) preds).2
    + size (X ∖ (foldl POI.push_unseen (seen, worklist) preds).1)
  = length worklist + size (X ∖ seen).
Proof.
  induction preds as [|p preds IH]; intros seen worklist HX; [done|].
  cbn [foldl]. unfold POI.push_unseen at 2 4. cbn [fst snd].
  case_bool_decide as Hp.
  - apply IH. intros q Hq. apply HX. by right.
  - rewrite IH by (intros q Hq; apply HX; by right).
    rewrite (size_difference_add X seen p); [cbn; lia| |done].
    apply HX. by left.
Qed.

Lemma predecessors_nodes cg v p : p ∈ predecessors cg v → is_Some (cg !! p).
Proof. intros ?%elem_of_predecessors. by eapply elem_of_successors_node. Qed.

Lemma longest_paths_loop_returns cg : ∀ fuel worklist seen longest_paths,
  length worklist + size (dom cg ∖ seen) ≤ fuel →
  ∃ r, POI.longest_paths_loop fuel cg worklist seen longest_paths = Return r
       ∧ ∀ x, x ∈ r → x ∈ longest_paths ∨ is_Some (cg !! x).
Proof.
  induction fuel as [|fuel IH]; intros worklist seen acc Hfuel.
  - destruct worklist; [|cbn in Hfuel; lia]. exists acc. by eauto.
  - destruct worklist as [|current_node worklist]; [exists acc; by eauto|].
    cbn [POI.longest_paths_loop].
    set (preds := predecessors cg current_node).
    destruct (IH (foldl POI.push_unseen (seen, worklist) preds).2
                 (foldl POI.push_unseen (seen, worklist) preds).1
                 (acc ++ preds)) as (r & Hr & Hnodes).
    { rewrite foldl_push_unseen_measure; [cbn in Hfuel; lia|].
      intros p Hp. apply elem_of_dom. by eapply predecessors_nodes. }
    exists r. split; [done|]. intros x Hx.
    destruct (Hnodes x Hx) as [[?| Hp]%elem_of_app|?]; eauto.
    right. by eapply predecessors_nodes.
Qed.

(** [find_longest_paths] returns: its worklist loop ends within the bound of
    the model, and it only lists the sink and nodes of the graph. *)
Lemma find_longest_paths_returns cg sink :
  ∃ paths, POI.find_longest_paths cg sink = Return paths
           ∧ ∀ x, x ∈ concat paths → x = sink ∨ is_Some (cg !! x).
Proof.
  unfold POI.find_longest_paths. destruct (has_node cg sink) eqn:Hsink.
  - set (preds := predecessors cg sink).
    destruct (longest_paths_loop_returns cg (size cg) (reverse preds)
                (list_to_set preds) ([sink] ++ preds)) as (r & Hr & Hnodes).
    { assert (NoDup preds) as Hnd by apply NoDup_filter, NoDup_nodes.
      assert ((list_to_set preds : gset string) ⊆ dom cg) as Hsub.
      { intros p Hp%elem_of_list_to_set. apply elem_of_dom.
        by eapply predecessors_nodes. }
      rewrite length_reverse, size_difference, size_dom, size_list_to_set by done.
      apply subseteq_size in Hsub. rewrite size_dom, size_list_to_set in Hsub by done.
      lia. }
    rewrite Hr. cbn. exists [r]. split; [done|]. cbn. rewrite app_nil_r.
    intros x Hx. destruct (Hnodes x Hx) as [Hin|?]; [|by eauto].
    apply elem_of_cons in Hin as [->|Hp]; [by left|].
    right. by eapply predecessors_nodes.
  - exists [[sink]]. split; [done|]. cbn.
    intros x ->%list_elem_of_singleton. by left.
Qed.

(** ** The call-path engine *)

Lemma entry_node_cases cg :
  POI.entry_node cg = "LLVMFuzzerTestOneInput" ∨ POI.entry_node cg = "main".
Proof. unfold POI.entry_node. destruct (has_node cg _); eauto. Qed.

Lemma reachable_node cg u v :
  closed cg → reachable cg u v → is_Some (cg !! v).
Proof.
  intros Hcl [Hu Hrtc]. apply rtc_inv_r in Hrtc as [<-|(y & _ & Hyv)].
  - by apply has_node_true.
  - eapply Hcl. by apply has_edge_true.
Qed.

Lemma harness_paths_returns cg sink :
  closed cg →
  ∃ paths, POI.harness_paths sink cg = Return paths
    ∧ (∀ x, x ∈ concat paths → x = sink ∨ is_Some (cg !! x))
    ∧ (reachable cg (POI.entry_node cg) sink → POI.entry_node cg ≠ sink →
       POI.entry_node cg ∈ concat paths).
Proof.
  intros Hcl. unfold POI.harness_paths.
  destruct (has_node cg (POI.entry_node cg)) eqn:Hentry.
  - unfold all_simple_paths. rewrite Hentry.
    set (targets := if has_node cg sink then [sink] else chars sink).
    assert (∀ p x, p ∈ simple_paths_visit (size cg - 1) cg targets []
                          (POI.entry_node cg) → x ∈ p → is_Some (cg !! x)) as Hn.
    { intros p x Hp Hx.
      destruct (simple_paths_visit_nodes cg targets Hcl _ _ _ _ Hp x Hx)
        as [?%elem_of_nil|[->|?]]; [done| |done].
      by apply has_node_true. }
    destruct targets as [|t targets'] eqn:Htargets.
    + exists []. split; [done|]. split; [by intros x ?%elem_of_nil|].
      intros Hreach _. exfalso.
      pose proof (reachable_node _ _ _ Hcl Hreach) as Hsink%has_node_true.
      subst targets. by rewrite Hsink in Htargets.
    + eexists. split; [done|]. split.
      * intros x (p & Hp & Hx)%elem_of_concat. right. by eapply Hn.
      * intros Hreach Hne.
        pose proof (reachable_node _ _ _ Hcl Hreach) as Hsink%has_node_true.
        subst targets. rewrite Hsink in Htargets. injection Htargets as <- <-.
        destruct Hreach as [_ (l & Hch & Hnd & Hlast)%reachable_simple_chain].
        apply elem_of_concat. exists ([] ++ POI.entry_node cg :: l).
        split; [|by left].
        apply simple_paths_visit_complete; [done..|].
        apply (simple_chain_length cg (POI.entry_node cg)); [done| |done..].
        by apply has_node_true.
  - destruct (find_longest_paths_returns cg sink) as (paths & -> & Hnodes).
    exists paths. split; [done|]. split; [done|].
    intros [Hnode _]. congruence.
Qed.

Lemma collect_call_path_returns sink (graphs : list DiGraph) : ∀ call_path,
  Forall closed graphs →
  ∃ names, POI.collect_call_path sink graphs call_path = Return names
    ∧ (∀ x, x ∈ call_path → x ∈ names)
    ∧ (∀ x, x ∈ names →
         x ∈ call_path ∨ x = sink ∨ ∃ cg, cg ∈ graphs ∧ is_Some (cg !! x))
    ∧ (∀ cg, cg ∈ graphs → reachable cg (POI.entry_node cg) sink →
         POI.entry_node cg ≠ sink → POI.entry_node cg ∈ names).
Proof.
  induction graphs as [|cg graphs IH]; intros call_path Hcl.
  - exists call_path. cbn. split; [done|]. split; [done|].
    split; [by eauto|]. by intros cg ?%elem_of_nil.
  - apply Forall_cons in Hcl as [Hcg Hcl]. cbn [POI.collect_call_path].
    destruct (harness_paths_returns cg sink Hcg) as (paths & -> & Hnodes & Hentry).
    cbn. destruct (IH (call_path ++ concat paths) Hcl) as (names & -> & Hsub & Hfrom & Hreach).
    exists names. split; [done|]. split; [|split].
    + intros x Hx. apply Hsub, elem_of_app. by left.
    + intros x Hx. destruct (Hfrom x Hx) as [[?|Hp]%elem_of_app|[?|(cg' & ? & ?)]].
      * by left.
      * destruct (Hnodes x Hp) as [?|?]; [by eauto|].
        right; right. exists cg. split; [by left|done].
      * by eauto.
      * right; right. exists cg'. split; [by right|done].
    + intros cg' [->|Hin]%elem_of_cons Hr Hne.
      * apply Hsub, elem_of_app. right. by apply Hentry.
      * by apply Hreach.
Qed.

Lemma elem_of_cached_graphs (harness_cfg : gmap string DiGraph) cg :
  cg ∈ (map_to_list harness_cfg).*2 ↔ ∃ harness, harness_cfg !! harness = Some cg.
Proof.
  rewrite list_elem_of_fmap. split.
  - intros [[h cg'] [-> Hin%elem_of_map_to_list]]. by exists h.
  - intros [h Hh]. exists (h, cg). split; [done|]. by apply elem_of_map_to_list.
Qed.

(** C2.  When the worker thread is still alive after the join, that is when
    the path search needs more than the timeout, the wrapper raises
    [TimeoutError] and [get_call_path_to] answers with the list holding the
    sink name alone instead of raising. *)
Theorem get_call_path_to_timeout (harness_cfg : gmap string DiGraph)
    (sink_funcname : string) (timeout_seconds : Z) (elapsed : option Z) :
  POI.thread_is_alive timeout_seconds elapsed = true →
  POI.with_timeout timeout_seconds elapsed (POI._find_paths harness_cfg sink_funcname)
    = Raise TimeoutError
  ∧ POI.get_call_path_to harness_cfg sink_funcname timeout_seconds elapsed
    = Return [sink_funcname].
Proof.
  intros Halive. unfold POI.get_call_path_to, POI.with_timeout.
  by rewrite Halive.
Qed.

Lemma get_call_path_to_timeout_witness :
  POI.thread_is_alive 600 (Some 601%Z) = true
  ∧ POI.get_call_path_to {["fuzz_target" := POI.gen_callgraph_from_file scenario_yaml]}
      "sink" 600 (Some 601%Z) = Return ["sink"].
Proof.
  split; [reflexivity|].
  apply (get_call_path_to_timeout _ "sink" 600 (Some 601%Z)). reflexivity.
Defined.

(** C3.  With the cache built from the analyzers' YAML files, the path
    search returns a list of names that holds the sink in every case; for a
    harness graph in which the sink is reachable from the entry node, it
    holds the entry node too, and each of its names is a node of a cached
    graph.  [get_call_path_to] returns that list when the search ends in
    time, and a list holding the sink at any rate. *)
Theorem call_path_soundness (yaml : gmap string (gmap string (list string)))
    (sink_funcname : string) :
  let harness_cfg := POI.gen_callgraph_from_file <$> yaml in
  ∃ names,
    POI._find_paths harness_cfg sink_funcname = Return names
    ∧ sink_funcname ∈ names
    ∧ (∀ harness cg,
         harness_cfg !! harness = Some cg →
         reachable cg (POI.entry_node cg) sink_funcname →
         POI.entry_node cg ∈ names ∧ sink_funcname ∈ names
         ∧ ∀ n, n ∈ names →
             ∃ harness' cg', harness_cfg !! harness' = Some cg'
                             ∧ has_node cg' n = true)
    ∧ (∀ timeout_seconds elapsed,
         ∃ r, POI.get_call_path_to harness_cfg sink_funcname timeout_seconds elapsed
              = Return r
              ∧ sink_funcname ∈ r
              ∧ (POI.thread_is_alive timeout_seconds elapsed = false → r = names)).
Proof.
  intros harness_cfg.
  assert (Forall closed (map_to_list harness_cfg).*2) as Hcl.
  { apply Forall_forall. intros cg [h Hh]%elem_of_cached_graphs.
    unfold harness_cfg in Hh. rewrite lookup_fmap in Hh.
    destruct (yaml !! h); simplify_eq/=. apply closed_gen_callgraph. }
  destruct (collect_call_path_returns sink_funcname _ [sink_funcname] Hcl)
    as (call_path & Heq & Hsub & Hfrom & Hreach).
  assert (POI._find_paths harness_cfg sink_funcname
          = Return (elements (list_to_set call_path : gset string))) as Hfind.
  { unfold POI._find_paths. by rewrite Heq. }
  assert (sink_funcname ∈ elements (list_to_set call_path : gset string)) as Hsink.
  { apply elem_of_elements, elem_of_list_to_set, Hsub. by left. }
  eexists. split; [exact Hfind|]. split; [done|]. split.
  - intros harness cg Hcg Hr.
    assert (closed cg) as Hcg_closed.
    { eapply Forall_forall in Hcl; [done|]. apply elem_of_cached_graphs. eauto. }
    pose proof (reachable_node _ _ _ Hcg_closed Hr) as Hsink_node%has_node_true.
    split; [|split; [done|]].
    + destruct (decide (POI.entry_node cg = sink_funcname)) as [->|Hne]; [done|].
      apply elem_of_elements, elem_of_list_to_set, Hreach; [|done..].
      apply elem_of_cached_graphs. eauto.
    + intros n Hn%elem_of_elements%elem_of_list_to_set.
      destruct (Hfrom n Hn)
        as [->%list_elem_of_singleton
           |[->|(cg' & [h' Hh']%elem_of_cached_graphs & Hnode)]].
      * by exists harness, cg.
      * by exists harness, cg.
      * exists h', cg'. split; [done|]. by apply has_node_true.
  - intros timeout_seconds elapsed.
    unfold POI.get_call_path_to, POI.with_timeout. rewrite Hfind.
    destruct (POI.thread_is_alive timeout_seconds elapsed).
    + exists [sink_funcname]. split; [done|]. split; [by left|done].
    + eexists. split; [done|]. by split.
Qed.

(** The sink ["sink"] of the scenario graph is reachable from its entry
    node, and the search lists the entry node for it. *)
Lemma call_path_soundness_witness :
  reachable (POI.gen_callgraph_from_file scenario_yaml)
    "LLVMFuzzerTestOneInput" "sink"
  ∧ ∃ names,
      POI._find_paths {["fuzz_target" := POI.gen_callgraph_from_file scenario_yaml]}
        "sink" = Return names
      ∧ "LLVMFuzzerTestOneInput" ∈ names.
Proof.
  assert (reachable (POI.gen_callgraph_from_file scenario_yaml)
            "LLVMFuzzerTestOneInput" "sink") as Hr.
  { split; [reflexivity|].
    eapply rtc_l; [instantiate (1 := "a"); reflexivity|].
    eapply rtc_l; [instantiate (1 := "b"); reflexivity|].
    eapply rtc_l; [instantiate (1 := "sink"); reflexivity|]. apply rtc_refl. }
  split; [exact Hr|].
  destruct (call_path_soundness {["fuzz_target" := scenario_yaml]} "sink")
    as (names & Hnames & _ & Hsound & _).
  rewrite map_fmap_singleton in Hnames, Hsound.
  exists names. split; [exact Hnames|].
  refine (proj1 (Hsound "fuzz_target" _ _ Hr)).
  apply lookup_singleton_eq.
Defined.

(** C5.  For the scenario graph, cached for any one harness, the path search
    returns the four names LLVMFuzzerTestOneInput, a, b and sink, each once;
    c, which does not lead to the sink, is left out; and that is what
    [get_call_path_to] returns when the search ends within the timeout. *)
Theorem scenario_call_path (harness : string) :
  let harness_cfg : gmap string DiGraph :=
    {[harness := POI.gen_callgraph_from_file scenario_yaml]} in
  ∃ names,
    POI._find_paths harness_cfg "sink" = Return names
    ∧ names ≡ₚ ["LLVMFuzzerTestOneInput"; "a"; "b"; "sink"]
    ∧ ("c" ∉ names)
    ∧ ∀ timeout_seconds elapsed,
        POI.thread_is_alive timeout_seconds elapsed = false →
        POI.get_call_path_to harness_cfg "sink" timeout_seconds elapsed
        = Return names.
Proof.
  intros harness_cfg.
  assert (∃ names, POI._find_paths harness_cfg "sink" = Return names
            ∧ names ≡ₚ ["LLVMFuzzerTestOneInput"; "a"; "b"; "sink"]
            ∧ "c" ∉ names) as (names & Hfind & Hperm & Hc).
  { unfold POI._find_paths, harness_cfg. rewrite map_to_list_singleton.
    eexists. split; [vm_compute; reflexivity|]. split.
    - apply NoDup_Permutation.
      + repeat constructor; set_solver.
      + repeat constructor; set_solver.
      + intros x. set_solver.
    - set_solver. }
  exists names. split; [done|]. split; [done|]. split; [done|].
  intros timeout_seconds elapsed Hdone.
  unfold POI.get_call_path_to, POI.with_timeout. by rewrite Hdone, Hfind.
Qed.

(** With the default timeout of 600 seconds and a search that takes 2. *)
Lemma scenario_call_path_witness :
  POI.thread_is_alive 600 (Some 2%Z) = false
  ∧ ∃ names,
      POI.get_call_path_to
        {["fuzz_target" := POI.gen_callgraph_from_file scenario_yaml]}
        "sink" 600 (Some 2%Z) = Return names
      ∧ names ≡ₚ ["LLVMFuzzerTestOneInput"; "a"; "b"; "sink"]
      ∧ "c" ∉ names.
Proof.
  split; [reflexivity|].
  destruct (scenario_call_path "fuzz_target") as (names & _ & Hperm & Hc & Hget).
  exists names. split; [|by split].
  apply Hget. reflexivity.
Defined.

(** ** The resolver front end *)

(** When the fuzzy match, the literal lookup and the location search all come
    back empty handed, the reference is reported as not resolved. *)
Lemma get_function_index_from_poi_unresolved (R : FunctionResolver) (s : string) :
  try_except (find_matching_index R s) None = None →
  try_except (get R s) None = None →
  try_except (resolve_source_location R
                (function_index_to_source_location R s None)) [] = [] →
  POI.get_function_index_from_poi R s
  = Raise (ValueError ("Function index " +:+ s +:+ " could not be resolved.")).
Proof.
  intros Hmatch Hget Hloc. unfold POI.get_function_index_from_poi.
  by rewrite Hmatch, Hget, Hloc.
Qed.

(** C4.  The resolver front end hands back [None] when the entry proposed by
    the location search cannot be fetched, and raises [AttributeError] when
    the entry found by the fuzzy matcher cannot be fetched. *)
Theorem get_function_index_from_poi_unfetchable :
  POI.get_function_index_from_poi stale_resolver "parse_header" = Return None
  ∧ POI.get_function_index_from_poi unfetchable_resolver "parse_header"
    = Raise AttributeError.
Proof. split; reflexivity. Qed.

(** ** The call path of a crash POI *)

Lemma map_size_1_singleton {A} (m : gmap string A) :
  size m = 1 ↔ ∃ k v, m = {[k := v]}.
Proof.
  split.
  - intros Hsize. rewrite <-length_map_to_list in Hsize.
    destruct (map_to_list m) as [|[k v] [|? ?]] eqn:E; simplify_eq/=.
    exists k, v. rewrite <-(list_to_map_to_list m), E. cbn.
    by rewrite insert_empty.
  - intros (k & v & ->). apply map_size_singleton.
Qed.

Lemma singleton_map_inj {A} (k k' : string) (v v' : A) :
  ({[k := v]} : gmap string A) = {[k' := v']} → k = k' ∧ v = v'.
Proof.
  intros Heq. apply (f_equal map_to_list) in Heq.
  rewrite !map_to_list_singleton in Heq. by simplify_eq.
Qed.

(** C9.  [CrashPOI.get_call_path_to] takes no timeout and searches no graph:
    its answer is the sink followed by the suffix recorded for it (none when
    the sink leads no block), after ["main"] exactly when the cache holds a
    single graph that has the node main and lacks LLVMFuzzerTestOneInput. *)
Theorem crash_get_call_path_to (self : CrashPOI.state) (sink_funcname : string) :
  ∃ prefix,
    CrashPOI.get_call_path_to self sink_funcname
    = prefix ++ [sink_funcname]
        ++ default [] (CrashPOI._block_leaders_call_path self !! sink_funcname)
    ∧ (prefix = ["main"] ∨ prefix = [])
    ∧ (prefix = ["main"]
       ↔ ∃ harness cg,
           CrashPOI.harness_cfg self = {[harness := cg]}
           ∧ has_node cg "LLVMFuzzerTestOneInput" = false
           ∧ has_node cg "main" = true).
Proof.
  unfold CrashPOI.get_call_path_to. case_bool_decide as Hsize.
  - apply map_size_1_singleton in Hsize as (h & cg & Hcfg). rewrite Hcfg.
    rewrite map_to_list_singleton. cbn [fmap list_fmap snd].
    destruct (has_node cg "LLVMFuzzerTestOneInput") eqn:Hentry;
      [|destruct (has_node cg "main") eqn:Hmain]; cbn [negb].
    + exists []. split; [done|]. split; [by right|]. split; [done|].
      intros (h' & cg' & [_ <-]%singleton_map_inj & ? & _). congruence.
    + exists ["main"]. split; [done|]. split; [by left|]. split; [|done].
      intros _. by exists h, cg.
    + exists []. split; [done|]. split; [by right|]. split; [done|].
      intros (h' & cg' & [_ <-]%singleton_map_inj & _ & ?). congruence.
  - exists []. split; [done|]. split; [by right|]. split; [done|].
    intros (h & cg & Hcfg & _). destruct Hsize. rewrite Hcfg.
    apply map_size_singleton.
Qed.

(** ** Coverage-gap ingestion *)

Ltac run_cases :=
  unfold sbind, lift, modify, gets, ret in *;
  repeat (simplify_eq/=; try case_match; try case_bool_decide).

(** One entry either leaves the catalog as it is or appends the entry built
    from it, and that only below 101 entries. *)
Lemma target_step_cases R resolve function_obj pois pois' o :
  OSSFuzzPOI.target_step R resolve function_obj pois = (pois', o) →
  pois' = pois
  ∨ ∃ p, pois' = pois ++ [p] ∧ converted_from function_obj p
         ∧ length pois ≤ 100 ∧ o = Return LoopContinue.
Proof.
  unfold OSSFuzzPOI.target_step, converted_from. intros Hstep.
  destruct (OSSFuzzPOI.is_reached_is_False function_obj) eqn:Hreached;
    [left; by run_cases|].
  unfold sbind, lift, modify, gets, ret in Hstep.
  destruct (OSSFuzzPOI.resolved_filename _ _); [|left; by simplify_eq/=].
  destruct (OSSFuzzPOI.py_int (default _ (_ !! "source_line_begin")))
    as [start_line|] eqn:Hstart; [|left; by simplify_eq/=].
  destruct (OSSFuzzPOI.py_int (default _ (_ !! "source_line_end")))
    as [end_line|] eqn:Hend; [|left; by simplify_eq/=].
  destruct (bool_decide (start_line = 0%Z)) eqn:Hs0; [left; by simplify_eq/=|].
  destruct (bool_decide (end_line = 0%Z)) eqn:He0; [left; by simplify_eq/=|].
  apply bool_decide_eq_false in Hs0, He0. cbn [orb] in Hstep.
  destruct (OSSFuzzPOI.get_funcindex_from_json _ _ _ _) as [[k|]|];
    [|(left; by simplify_eq/=)..].
  destruct (100 <? length pois) eqn:Hlen; [left; by simplify_eq/=|].
  apply Nat.ltb_ge in Hlen. right. simplify_eq. eexists. split; [done|].
  split; [|done]. split; [done|]. split; [by eauto|]. split; [by eauto|done].
Qed.

Lemma parse_optimal_targets_appends R resolve functions : ∀ pois pois' o,
  OSSFuzzPOI.parse_poi_from_optimal_targets R resolve functions pois = (pois', o) →
  ∃ new, pois' = pois ++ new
         ∧ Forall (λ p, ∃ function_obj,
                      function_obj ∈ functions ∧ converted_from function_obj p) new
         ∧ (length pois ≤ 101 → length pois' ≤ 101).
Proof.
  induction functions as [|function_obj functions IH]; intros pois pois' o Hparse.
  - cbn in Hparse. unfold ret in Hparse. simplify_eq. exists []. rewrite app_nil_r.
    split; [done|]. split; [constructor|done].
  - cbn [OSSFuzzPOI.parse_poi_from_optimal_targets] in Hparse.
    unfold sbind in Hparse.
    destruct (OSSFuzzPOI.target_step R resolve function_obj pois)
      as [pois1 o1] eqn:Hstep.
    assert (∃ new, pois1 = pois ++ new
              ∧ Forall (λ p, ∃ f, f ∈ function_obj :: functions
                                  ∧ converted_from f p) new
              ∧ (length pois ≤ 101 → length pois1 ≤ 101)) as (new1 & -> & Hnew1 & Hlen1).
    { apply target_step_cases in Hstep as [->|(p & -> & Hp & Hlen & _)].
      - exists []. rewrite app_nil_r. split; [done|]. split; [constructor|done].
      - exists [p]. split; [done|]. split.
        + apply Forall_singleton. exists function_obj. split; [by left|done].
        + intros _. rewrite length_app. cbn. lia. }
    assert (∀ new, Forall (λ p, ∃ f, f ∈ functions ∧ converted_from f p) new →
              Forall (λ p, ∃ f, f ∈ function_obj :: functions
                                ∧ converted_from f p) new) as Hweaken.
    { intros new Hnew. eapply Forall_impl; [exact Hnew|]. intros p (f & Hf & Hp).
      exists f. split; [by right|done]. }
    destruct o1 as [[]|e].
    + unfold ret in Hparse. simplify_eq. by exists new1.
    + apply IH in Hparse as (new2 & -> & Hnew2 & Hlen2).
      exists (new1 ++ new2). split; [by rewrite app_assoc|].
      split; [apply Forall_app; by eauto|]. by eauto.
    + simplify_eq. by exists new1.
Qed.

(** C8.  An entry flagged [is_reached: false], or one whose start or end
    line is zero, leaves the catalog as it was; every entry appended by the
    ingestion comes from a report entry that is not flagged unreached and
    has non-zero lines, and carries that entry's coverage percent and
    accumulated complexity. *)
Theorem optimal_targets_conversion (R : FunctionResolver) (resolve : string → string) :
  (∀ function_obj pois,
     function_obj !! "is_reached" = Some (JBool false)
     ∨ function_obj !! "source_line_begin" = Some (JInt 0)
     ∨ function_obj !! "source_line_end" = Some (JInt 0) →
     (OSSFuzzPOI.target_step R resolve function_obj pois).1 = pois)
  ∧ (∀ functions pois,
       ∃ new,
         (OSSFuzzPOI.parse_poi_from_optimal_targets R resolve functions pois).1
         = pois ++ new
         ∧ Forall (λ p, ∃ function_obj,
                      function_obj ∈ functions ∧ converted_from function_obj p) new).
Proof.
  split.
  - intros function_obj pois Hflag.
    destruct (OSSFuzzPOI.target_step R resolve function_obj pois)
      as [pois' o] eqn:Hstep. cbn.
    apply target_step_cases in Hstep
      as [->|(p & _ & (Hreached & (s & Hs & Hs0) & (e & He & He0) & _) & _)];
      [done|exfalso].
    destruct Hflag as [Hflag|[Hflag|Hflag]].
    + unfold OSSFuzzPOI.is_reached_is_False in Hreached. by rewrite Hflag in Hreached.
    + rewrite Hflag in Hs. cbn in Hs. by simplify_eq.
    + rewrite Hflag in He. cbn in He. by simplify_eq.
  - intros functions pois.
    destruct (OSSFuzzPOI.parse_poi_from_optimal_targets R resolve functions pois)
      as [pois' o] eqn:Hparse.
    apply parse_optimal_targets_appends in Hparse as (new & -> & Hnew & _).
    by exists new.
Qed.

(** The sample entry is converted, with its coverage and complexity. *)
Lemma optimal_targets_conversion_witness :
  (OSSFuzzPOI.parse_poi_from_optimal_targets parse_header_resolver id
     [parse_header_target] []).1
  = [CoverageGapPOI parse_header_key (JFloat (25 # 2)) (JInt 7)]
  ∧ ∃ new,
      (OSSFuzzPOI.parse_poi_from_optimal_targets parse_header_resolver id
         [parse_header_target] []).1 = [] ++ new
      ∧ Forall (λ p, ∃ function_obj,
                   function_obj ∈ [parse_header_target]
                   ∧ converted_from function_obj p) new.
Proof.
  split; [vm_compute; reflexivity|].
  apply (proj2 (optimal_targets_conversion parse_header_resolver id)).
Defined.

(** At most 101 entries: the guard of [parse_poi_from_optimal_targets] lets
    the entry through when the catalog already holds 100. *)
Lemma optimal_targets_bound R resolve functions pois :
  length pois ≤ 101 →
  length (OSSFuzzPOI.parse_poi_from_optimal_targets R resolve functions pois).1 ≤ 101.
Proof.
  intros Hlen.
  destruct (OSSFuzzPOI.parse_poi_from_optimal_targets R resolve functions pois)
    as [pois' o] eqn:Hparse.
  apply parse_optimal_targets_appends in Hparse as (new & -> & _ & Hbound). eauto.
Qed.

(** C1.  A coverage-gap report with 150 convertible entries leaves 101
    entries in a catalog that was empty: the cap of 100 is exceeded. *)
Theorem optimal_targets_exceed_cap :
  length (OSSFuzzPOI.add_poi parse_header_resolver id
            (Some (replicate 150 parse_header_target)) []).1 = 101.
Proof. vm_compute. reflexivity. Qed.

(** ** Crash-report ingestion *)

(** What one frame does to the walk: the catalog stays or grows by one entry
    whose identity was not seen before, and that only below 100 entries; the
    seen set only grows; at most one query is submitted, and an identity it
    resolves to is seen afterwards; when the step returns, a newly seen
    identity has been appended unless the catalog is full. *)
Lemma frame_step_effect R report block frame leader w w' o :
  CrashPOI.frame_step R report block frame leader w = (w', o) →
  let pois := CrashPOI._pois (CrashPOI.self w) in
  let pois' := CrashPOI._pois (CrashPOI.self w') in
  (pois' = pois
   ∨ ∃ p, pois' = pois ++ [p] ∧ (length pois < 100)
          ∧ (function_index_key p ∉ CrashPOI.seen_func_indices w)
          ∧ function_index_key p ∈ CrashPOI.seen_func_indices w')
  ∧ CrashPOI.seen_func_indices w ⊆ CrashPOI.seen_func_indices w'
  ∧ (CrashPOI.submitted w' = CrashPOI.submitted w
     ∨ ∃ func file line,
         CrashPOI.submitted w' = CrashPOI.submitted w ++ [(func, file, line)]
         ∧ ∀ k, CrashPOI.get_funcindex_from_backtrace R func file line
                = Return (Some k) → k ∈ CrashPOI.seen_func_indices w')
  ∧ (∀ r, o = Return r →
       ∀ k, k ∈ CrashPOI.seen_func_indices w' →
         k ∈ CrashPOI.seen_func_indices w
         ∨ (∃ p, pois' = pois ++ [p] ∧ function_index_key p = k)
         ∨ 100 ≤ length pois').
Proof.
  unfold CrashPOI.frame_step. destruct frame as [func loc]. intros Hstep.
  unfold sbind, lift, modify, gets, ret in Hstep.
  repeat (case_match; simplify_eq/=).
  all: repeat match goal with
       | H : bool_decide _ = true |- _ => apply bool_decide_eq_true in H
       | H : bool_decide _ = false |- _ => apply bool_decide_eq_false in H
       | H : (_ <? _) = true |- _ => apply Nat.ltb_lt in H
       | H : (_ <? _) = false |- _ => apply Nat.ltb_ge in H
       end.
  all: split;
    [first [by left
           |right; eexists; split; [done|]; split; [done|]; split; [done|set_solver]]|].
  all: split; [set_solver|].
  all: split;
    [first [by left
           |right; do 3 eexists; split; [reflexivity|];
            intros k' Hk';
            first [exfalso; congruence
                  |match goal with
                   | H : _ = Return (Some ?k) |- _ =>
                       assert (k' = k) as -> by congruence; set_solver
                   end]]|].
  all: try solve [intros r Hr k' Hk'; simplify_eq; by left].
  all: try solve [intros r Hr k' Hk'; simplify_eq;
    apply elem_of_union in Hk' as [->%elem_of_singleton|?]; [|by left]; right;
    first [left; eexists; by split|right; lia] ].
Qed.

Lemma frame_step_inv R pois0 complete report block frame leader w w' o :
  CrashPOI.frame_step R report block frame leader w = (w', o) →
  crash_inv R pois0 complete w →
  crash_inv R pois0 (complete && is_return o) w'
  ∧ ∀ q, q ∈ CrashPOI.submitted w → q ∈ CrashPOI.submitted w'.
Proof.
  intros (Hpois & Hseen & Hsub & Hfull)%frame_step_effect
         (new & Hnew & Hnd & Hkeys & Hres & Hcap & Hcomplete).
  cbn zeta in *. split.
  - assert (∃ new', CrashPOI._pois (CrashPOI.self w') = pois0 ++ new'
              ∧ NoDup (function_index_key <$> new')
              ∧ (∀ p, p ∈ new' → function_index_key p ∈ CrashPOI.seen_func_indices w')
              ∧ (∀ k, k ∈ function_index_key <$> new → k ∈ function_index_key <$> new')
              ∧ (length pois0 ≤ 100 → length (CrashPOI._pois (CrashPOI.self w')) ≤ 100)
              ∧ (∀ p, CrashPOI._pois (CrashPOI.self w')
                      = CrashPOI._pois (CrashPOI.self w) ++ [p] →
                      function_index_key p ∈ function_index_key <$> new'))
      as (new' & Hnew' & Hnd' & Hkeys' & Hmono & Hcap' & Hlast).
    { destruct Hpois as [Heq|(p & Heq & Hlen & Hfresh & Hin)].
      - exists new. rewrite Heq. split; [done|]. split; [done|].
        split; [by intros p ?%Hkeys%Hseen|]. split; [done|]. split; [done|].
        intros p Hp. apply (f_equal length) in Hp. rewrite length_app in Hp.
        cbn in Hp. lia.
      - assert (CrashPOI._pois (CrashPOI.self w') = pois0 ++ new ++ [p]) as Heq'
          by (by rewrite Heq, Hnew, app_assoc).
        exists (new ++ [p]). split; [done|].
        split; [|split; [|split; [|split]]].
        + rewrite fmap_app. apply NoDup_app. split; [done|]. split.
          * intros k (p' & -> & Hp')%list_elem_of_fmap Hk.
            apply list_elem_of_singleton in Hk. apply Hfresh.
            rewrite <-Hk. by apply Hkeys.
          * apply NoDup_singleton.
        + intros p' [?%Hkeys%Hseen| ->%list_elem_of_singleton]%elem_of_app; done.
        + intros k Hk. rewrite fmap_app. apply elem_of_app. by left.
        + intros _. rewrite Heq, length_app. cbn. lia.
        + intros p' Hp'. rewrite Heq in Hp'.
          apply app_inv_head in Hp'. injection Hp' as <-.
          rewrite fmap_app. apply elem_of_app. right. by left. }
    exists new'. split; [done|]. split; [done|]. split; [done|].
    split; [|split; [done|]].
    + intros func file line k Hq Hk.
      destruct Hsub as [Heq|(func' & file' & line' & Heq & Hk')].
      * rewrite Heq in Hq. by eapply Hseen, Hres.
      * rewrite Heq in Hq. apply elem_of_app in Hq as [Hq|Hq].
        -- by eapply Hseen, Hres.
        -- apply list_elem_of_singleton in Hq. simplify_eq. by apply Hk'.
    + intros [-> Hret]%andb_true_iff k Hk.
      destruct o as [r|]; [|done].
      destruct (Hfull r eq_refl k Hk) as [Hold|[(p & Hp & <-)|Hlen]].
      * destruct (Hcomplete eq_refl k Hold) as [?|Hlen]; [left; by apply Hmono|].
        right. destruct Hpois as [->|(p & -> & _)]; [done|].
        rewrite length_app. lia.
      * left. by eapply Hlast.
      * by right.
  - intros q Hq. destruct Hsub as [->|(? & ? & ? & -> & _)]; [done|].
    apply elem_of_app. by left.
Qed.

Lemma crash_inv_weaken R pois0 complete w :
  crash_inv R pois0 complete w → crash_inv R pois0 false w.
Proof.
  intros (new & ? & ? & ? & ? & ? & _). exists new. by repeat split.
Qed.

Lemma walk_frames_inv R pois0 report block frames : ∀ complete leader w w' o,
  CrashPOI.walk_frames R report block frames leader w = (w', o) →
  crash_inv R pois0 complete w →
  crash_inv R pois0 (complete && is_return o) w'
  ∧ ∀ q, q ∈ CrashPOI.submitted w → q ∈ CrashPOI.submitted w'.
Proof.
  induction frames as [|frame frames IH]; intros complete leader w w' o Hwalk Hinv.
  - cbn in Hwalk. unfold ret in Hwalk. simplify_eq. cbn.
    by rewrite andb_true_r.
  - cbn [CrashPOI.walk_frames] in Hwalk. unfold sbind in Hwalk.
    destruct (CrashPOI.frame_step R report block frame leader w)
      as [w1 o1] eqn:Hstep.
    destruct (frame_step_inv _ pois0 complete _ _ _ _ _ _ _ Hstep Hinv)
      as [Hinv1 Hsub1].
    destruct o1 as [[[] leader']|e]; cbn in Hinv1; rewrite ?andb_true_r in Hinv1.
    + unfold ret in Hwalk. simplify_eq. cbn. by rewrite andb_true_r.
    + destruct (IH _ _ _ _ _ Hwalk Hinv1) as [Hinv' Hsub']. by eauto.
    + simplify_eq. by split.
Qed.

Lemma walk_blocks_inv R pois0 report blocks : ∀ complete w w' o,
  CrashPOI.walk_blocks R report blocks w = (w', o) →
  crash_inv R pois0 complete w →
  crash_inv R pois0 (complete && is_return o) w'
  ∧ ∀ q, q ∈ CrashPOI.submitted w → q ∈ CrashPOI.submitted w'.
Proof.
  induction blocks as [|block blocks IH]; intros complete w w' o Hwalk Hinv.
  - cbn in Hwalk. unfold ret in Hwalk. simplify_eq. cbn.
    by rewrite andb_true_r.
  - cbn [CrashPOI.walk_blocks] in Hwalk. unfold sbind in Hwalk.
    destruct (CrashPOI.walk_frames R report block (line_matches block.2) None w)
      as [w1 o1] eqn:Hframes.
    destruct (walk_frames_inv _ pois0 _ _ _ complete _ _ _ _ Hframes Hinv)
      as [Hinv1 Hsub1].
    destruct o1 as [[]|e]; cbn in Hinv1; rewrite ?andb_true_r in Hinv1.
    + destruct (IH _ _ _ _ Hwalk Hinv1) as [Hinv' Hsub']. by eauto.
    + simplify_eq. by split.
Qed.

Lemma add_poi_inv R report st w' o :
  CrashPOI.add_poi R report st = (w', o) →
  crash_inv R (CrashPOI._pois st) (is_return o) w'.
Proof.
  unfold CrashPOI.add_poi, CrashPOI.parse_poi_from_crash_report. intros Hwalk.
  eapply (walk_blocks_inv _ (CrashPOI._pois st) _ _ true) in Hwalk as [Hinv _];
    [done|].
  exists []. cbn. rewrite app_nil_r. split; [done|]. split; [constructor|].
  split; [by intros p ?%elem_of_nil|]. split; [by intros ???? ?%elem_of_nil|].
  split; [done|]. by intros _ k ?%elem_of_empty.
Qed.

(** The crash-report pipeline keeps the catalog within 100 entries. *)
Lemma crash_report_cap R report st :
  length (CrashPOI._pois st) ≤ 100 →
  length (CrashPOI._pois (CrashPOI.self (CrashPOI.add_poi R report st).1)) ≤ 100.
Proof.
  intros Hlen. destruct (CrashPOI.add_poi R report st) as [w' o] eqn:Hadd.
  apply add_poi_inv in Hadd as (new & _ & _ & _ & _ & Hcap & _). by apply Hcap.
Qed.

Lemma count_key_absent (new : list poi) k :
  k ∉ function_index_key <$> new →
  length (filter (λ p, function_index_key p = k) new) = 0.
Proof.
  induction new as [|p new IH]; [done|].
  rewrite fmap_cons, not_elem_of_cons, filter_cons. intros [Hne Hk].
  case_decide; [congruence|by apply IH].
Qed.

Lemma count_key_NoDup (new : list poi) k :
  NoDup (function_index_key <$> new) →
  k ∈ function_index_key <$> new →
  length (filter (λ p, function_index_key p = k) new) = 1.
Proof.
  induction new as [|p new IH]; [by intros _ ?%elem_of_nil|].
  rewrite fmap_cons, filter_cons. intros [Hp Hnd]%NoDup_cons Hk.
  case_decide as Heq.
  - cbn. f_equal. apply count_key_absent. by rewrite <-Heq.
  - apply IH; [done|]. apply elem_of_cons in Hk as [?|?]; [congruence|done].
Qed.

(** ** Frame locations *)

Lemma list_ascii_of_string_app (a b : string) :
  list_ascii_of_string (a +:+ b) = list_ascii_of_string a ++ list_ascii_of_string b.
Proof. induction a as [|c a IH]; simpl; [done|]. by rewrite IH. Qed.

Lemma split_chars_0 sep (s : list ascii) : split_chars sep s 0 = [s].
Proof. by destruct s. Qed.

Lemma split_chars_sep sep (pre rest : list ascii) m :
  sep ∉ pre →
  split_chars sep (pre ++ sep :: rest) (S m) = pre :: split_chars sep rest m.
Proof.
  induction pre as [|c pre IH]; cbn; intros Hsep.
  - by rewrite decide_True.
  - apply not_elem_of_cons in Hsep as [Hne Hsep].
    rewrite decide_False by done. by rewrite IH.
Qed.

Lemma is_number_no_colon s :
  is_number s → ":"%char ∉ reverse (list_ascii_of_string s).
Proof.
  intros [_ Hdigits] Hin. rewrite elem_of_reverse in Hin.
  rewrite Forall_forall in Hdigits. specialize (Hdigits _ Hin).
  vm_compute in Hdigits. discriminate.
Qed.

(** A location [file:line:col] splits into its three parts. *)
Lemma rsplit_location (filepath line_number column : string) :
  is_number line_number → is_number column →
  rsplit ":" 2 (filepath +:+ ":" +:+ line_number +:+ ":" +:+ column)
  = [filepath; line_number; column].
Proof.
  intros Hline Hcol. unfold rsplit.
  rewrite !list_ascii_of_string_app. cbn [list_ascii_of_string app].
  rewrite reverse_app, reverse_cons, reverse_app, reverse_cons, <-!app_assoc.
  cbn [app].
  rewrite split_chars_sep by by apply is_number_no_colon.
  rewrite split_chars_sep by by apply is_number_no_colon.
  rewrite split_chars_0. cbn [map].
  rewrite !reverse_involutive, !string_of_list_ascii_of_string.
  reflexivity.
Qed.

Lemma digits_value_Some (s : list ascii) : ∀ acc after_digit,
  Forall (λ c, is_digit c = true) s →
  s ≠ [] ∨ after_digit = true →
  is_Some (digits_value acc after_digit s).
Proof.
  induction s as [|c s IH]; intros acc after_digit Hdigits Hne.
  - destruct Hne as [?| ->]; [done|]. cbn. by eauto.
  - apply Forall_cons in Hdigits as [Hc Hdigits]. cbn.
    rewrite decide_False by (intros ->; discriminate).
    rewrite Hc. apply IH; [done|]. by right.
Qed.

Lemma lstrip_digit c (s : list ascii) : is_digit c = true → lstrip (c :: s) = c :: s.
Proof.
  intros Hc. cbn. replace (is_int_space c) with false; [done|].
  destruct c as [[] [] [] [] [] [] [] []]; done.
Qed.

(** [int] reads a printed number. *)
Lemma int_of_str_number s : is_number s → is_Some (int_of_str s).
Proof.
  intros [Hne Hdigits]. unfold int_of_str.
  destruct (list_ascii_of_string s) as [|c l] eqn:Hs.
  { destruct s; simplify_eq/=. }
  pose proof Hdigits as [Hc _]%Forall_cons.
  rewrite lstrip_digit by done.
  destruct (reverse (c :: l)) as [|c' l'] eqn:Hrev.
  { apply (f_equal reverse) in Hrev. by rewrite reverse_involutive in Hrev. }
  assert (is_digit c' = true) as Hc'.
  { rewrite Forall_forall in Hdigits. apply Hdigits.
    rewrite <-elem_of_reverse, Hrev. by left. }
  rewrite lstrip_digit by done. rewrite <-Hrev, reverse_involutive.
  assert (is_Some (digits_value 0 false (c :: l))) as Hsome
    by (apply digits_value_Some; [done|by left]).
  destruct c as [[] [] [] [] [] [] [] []]; try done.
Qed.

(** The number of parts of a split: one more than the separators, up to
    the limit. *)
Lemma length_split_chars sep (s : list ascii) : ∀ m,
  length (split_chars sep s m) = S (min m (length (filter (λ c, c = sep) s))).
Proof.
  induction s as [|c s IH]; intros m; [cbn; lia|].
  destruct m as [|m]; [done|]. cbn [split_chars]. rewrite filter_cons.
  destruct (decide (c = sep)) as [->|Hne].
  - cbn [length]. rewrite IH. lia.
  - specialize (IH (S m)).
    destruct (split_chars sep s (S m)) as [|w ws]; [done|]. done.
Qed.

Lemma length_rsplit sep m s :
  length (rsplit sep m s)
  = S (min m (length (filter (λ c, c = sep) (list_ascii_of_string s)))).
Proof.
  unfold rsplit. rewrite length_reverse, length_map, length_split_chars.
  do 2 f_equal. apply Permutation_length, filter_Permutation.
  apply reverse_Permutation.
Qed.

(** ** Frames submitted to the resolver *)

Lemma frame_step_submits R report block func loc filepath line_number column line
    leader w w' o :
  walks_on func →
  rsplit ":" 2 loc = [filepath; line_number; column] →
  int_of_str line_number = Some line →
  CrashPOI.frame_step R report block (func, loc) leader w = (w', o) →
  (func, path_name filepath, line) ∈ CrashPOI.submitted w'.
Proof.
  intros [Hentry Hlibc] Hsplit Hint. unfold CrashPOI.frame_step.
  rewrite Hentry, Hlibc, Hsplit. unfold CrashPOI.int_or_raise. rewrite Hint.
  unfold sbind, lift, modify, gets, ret. intros Hstep.
  repeat (case_match; simplify_eq/=).
  all: apply elem_of_app; right; by left.
Qed.

Lemma frame_step_break R report block func loc leader w w' leader' :
  CrashPOI.frame_step R report block (func, loc) leader w
  = (w', Return (LoopBreak, leader')) →
  ¬ walks_on func.
Proof.
  unfold CrashPOI.frame_step, sbind, lift, modify, gets, ret. intros Hstep [? ?].
  repeat (case_match; simplify_eq/=).
Qed.

Lemma frame_step_submitted_mono R report block frame leader w w' o q :
  CrashPOI.frame_step R report block frame leader w = (w', o) →
  q ∈ CrashPOI.submitted w → q ∈ CrashPOI.submitted w'.
Proof.
  intros (_ & _ & [->|(? & ? & ? & -> & _)] & _)%frame_step_effect Hq; [done|].
  apply elem_of_app. by left.
Qed.

Lemma walk_frames_submitted_mono R report block frames q : ∀ leader w w' o,
  CrashPOI.walk_frames R report block frames leader w = (w', o) →
  q ∈ CrashPOI.submitted w → q ∈ CrashPOI.submitted w'.
Proof.
  induction frames as [|frame frames IH]; intros leader w w' o Hwalk Hq.
  - cbn in Hwalk. unfold ret in Hwalk. by simplify_eq.
  - cbn [CrashPOI.walk_frames] in Hwalk. unfold sbind in Hwalk.
    destruct (CrashPOI.frame_step R report block frame leader w)
      as [w1 o1] eqn:Hstep.
    eapply frame_step_submitted_mono in Hq; [|done].
    destruct o1 as [[[] leader1]|e].
    + unfold ret in Hwalk. by simplify_eq.
    + by eapply IH.
    + by simplify_eq.
Qed.

Lemma walk_blocks_submitted_mono R report blocks q : ∀ w w' o,
  CrashPOI.walk_blocks R report blocks w = (w', o) →
  q ∈ CrashPOI.submitted w → q ∈ CrashPOI.submitted w'.
Proof.
  induction blocks as [|block blocks IH]; intros w w' o Hwalk Hq.
  - cbn in Hwalk. unfold ret in Hwalk. by simplify_eq.
  - cbn [CrashPOI.walk_blocks] in Hwalk. unfold sbind in Hwalk.
    destruct (CrashPOI.walk_frames R report block (line_matches block.2) None w)
      as [w1 o1] eqn:Hframes.
    eapply walk_frames_submitted_mono in Hq; [|done].
    destruct o1 as [[]|e]; [by eapply IH|by simplify_eq].
Qed.

Lemma walk_frames_submits R report block func filepath line_number column line
    frames : ∀ i leader w w',
  CrashPOI.walk_frames R report block frames leader w = (w', Return tt) →
  frames !! i = Some (func, filepath +:+ ":" +:+ line_number +:+ ":" +:+ column) →
  is_number line_number → is_number column →
  int_of_str line_number = Some line →
  (∀ j f l, j ≤ i → frames !! j = Some (f, l) → walks_on f) →
  (func, path_name filepath, line) ∈ CrashPOI.submitted w'.
Proof.
  induction frames as [|[f l] frames IH];
    intros i leader w w' Hwalk Hi Hln Hcol Hint Hon;
    [by rewrite lookup_nil in Hi|].
  cbn [CrashPOI.walk_frames] in Hwalk. unfold sbind in Hwalk.
  destruct (CrashPOI.frame_step R report block (f, l) leader w)
    as [w1 [[[] leader1]|e]] eqn:Hstep; [| |done].
  - apply frame_step_break in Hstep. destruct Hstep.
    apply (Hon 0 f l); [lia|done].
  - destruct i as [|i].
    + cbn in Hi. injection Hi as -> ->.
      eapply walk_frames_submitted_mono; [done|].
      refine (frame_step_submits _ _ _ _ _ _ _ _ _ _ _ _ _ (Hon 0 _ _ _ _)
                (rsplit_location _ _ _ Hln Hcol) Hint Hstep); [lia|done].
    + eapply IH; [done..|]. intros j f' l' Hj Hf'. apply (Hon (S j) f' l'); [lia|done].
Qed.

Lemma walk_blocks_submits R report block func filepath line_number column line i
    blocks : ∀ w w',
  CrashPOI.walk_blocks R report blocks w = (w', Return tt) →
  block ∈ blocks →
  line_matches block.2 !! i
  = Some (func, filepath +:+ ":" +:+ line_number +:+ ":" +:+ column) →
  is_number line_number → is_number column →
  int_of_str line_number = Some line →
  (∀ j f l, j ≤ i → line_matches block.2 !! j = Some (f, l) → walks_on f) →
  (func, path_name filepath, line) ∈ CrashPOI.submitted w'.
Proof.
  induction blocks as [|b blocks IH]; intros w w' Hwalk Hin Hi Hln Hcol Hint Hon;
    [by apply elem_of_nil in Hin|].
  cbn [CrashPOI.walk_blocks] in Hwalk. unfold sbind in Hwalk.
  destruct (CrashPOI.walk_frames R report b (line_matches b.2) None w)
    as [w1 [[]|e]] eqn:Hframes; [|done].
  apply elem_of_cons in Hin as [->|Hin].
  - eapply walk_blocks_submitted_mono; [done|].
    by eapply walk_frames_submits.
  - by eapply IH.
Qed.

(** C6, as amended.  For a crash report whose stack-trace blocks are ASCII
    text: when the ingestion returns, every frame found by the line pattern
    whose location reads [file:line:col], with a line and a column that are
    decimal numbers, has been submitted to the resolver as
    (function, file name, line), provided no frame of its block up to it
    names the fuzz entry or the process entry.  A frame that names no entry
    symbol and whose location holds fewer than two colons ([file:line] with
    no colon in the file) is skipped: no query is made, the walk state is
    unchanged and the loop goes on with the same leader. *)
Theorem frames_with_column_submitted :
  (∀ (R : FunctionResolver) (report : CrashPOI.crash_report) (st : CrashPOI.state)
     (w' : CrashPOI.walk) (block : string * string) (i : nat)
     (func filepath line_number column : string),
     Forall (λ b, is_ascii_text b.2 = true) (CrashPOI.matches report) →
     CrashPOI.add_poi R report st = (w', Return tt) →
     block ∈ CrashPOI.matches report →
     line_matches block.2 !! i
     = Some (func, filepath +:+ ":" +:+ line_number +:+ ":" +:+ column) →
     is_number line_number → is_number column →
     (∀ j f l, j ≤ i → line_matches block.2 !! j = Some (f, l) → walks_on f) →
     ∃ line, int_of_str line_number = Some line
             ∧ (func, path_name filepath, line) ∈ CrashPOI.submitted w')
  ∧ (∀ (R : FunctionResolver) (report : CrashPOI.crash_report)
       (block : string * string) (func loc : string) (leader : option string)
       (w : CrashPOI.walk),
       walks_on func →
       length (filter (λ c, c = ":"%char) (list_ascii_of_string loc)) < 2 →
       CrashPOI.frame_step R report block (func, loc) leader w
       = (w, Return (LoopContinue, leader))).
Proof.
  split.
  - intros R report st w' block i func filepath line_number column
      _ Hadd Hblock Hi Hln Hcol Hon.
    destruct (int_of_str_number line_number Hln) as [line Hint].
    exists line. split; [done|].
    unfold CrashPOI.add_poi, CrashPOI.parse_poi_from_crash_report in Hadd.
    by eapply walk_blocks_submits.
  - intros R report block func loc leader w [Hfuzz Hlibc] Hcolons.
    unfold CrashPOI.frame_step. rewrite Hfuzz, Hlibc.
    pose proof (length_rsplit ":" 2 loc) as Hlen.
    destruct (rsplit ":" 2 loc) as [|a [|b [|c [|d l]]]]; try reflexivity.
    cbn [length] in Hlen. lia.
Qed.

Lemma frames_with_column_submitted_witness :
  (∃ line, int_of_str "42" = Some line
           ∧ ("parse_header", path_name "/src/lib/parse.c", line)
             ∈ CrashPOI.submitted
                 (CrashPOI.add_poi parse_header_resolver
                    (report_of_block frame_with_column) fresh_crash_poi).1)
  ∧ CrashPOI.frame_step parse_header_resolver (report_of_block frame_without_column)
      frame_without_column ("parse_header", "/src/lib/parse.c:42") None
      {| CrashPOI.self := fresh_crash_poi; CrashPOI.seen_func_indices := ∅;
         CrashPOI.first_leader := None; CrashPOI.submitted := [] |}
    = ({| CrashPOI.self := fresh_crash_poi; CrashPOI.seen_func_indices := ∅;
          CrashPOI.first_leader := None; CrashPOI.submitted := [] |},
       Return (LoopContinue, None)).
Proof.
  split.
  - apply (proj1 frames_with_column_submitted parse_header_resolver
             (report_of_block frame_with_column) fresh_crash_poi _
             frame_with_column 0 "parse_header" "/src/lib/parse.c" "42" "7").
    + repeat constructor.
    + vm_compute. reflexivity.
    + vm_compute. left.
    + vm_compute. reflexivity.
    + split; [discriminate|]. repeat constructor.
    + split; [discriminate|]. repeat constructor.
    + intros j f l Hj Hl. assert (j = 0) as -> by lia.
      vm_compute in Hl. injection Hl as <- <-. split; reflexivity.
  - apply (proj2 frames_with_column_submitted).
    + split; reflexivity.
    + vm_compute. lia.
Defined.

(** C6, counterexample.  A frame of an ASCII report whose location has no
    column is found by the line pattern and names no entry symbol, yet the
    ingestion returns without a query to the resolver and without a catalog
    entry. *)
Lemma frame_without_column_skipped :
  is_ascii_text frame_without_column.2 = true
  ∧ line_matches frame_without_column.2 = [("parse_header", "/src/lib/parse.c:42")]
  ∧ walks_on "parse_header"
  ∧ (CrashPOI.add_poi parse_header_resolver
       (report_of_block frame_without_column) fresh_crash_poi).2 = Return tt
  ∧ CrashPOI.submitted
      (CrashPOI.add_poi parse_header_resolver
         (report_of_block frame_without_column) fresh_crash_poi).1 = []
  ∧ CrashPOI._pois
      (CrashPOI.self
         (CrashPOI.add_poi parse_header_resolver
            (report_of_block frame_without_column) fresh_crash_poi).1) = [].
Proof. repeat split; vm_compute; reflexivity. Qed.

(** ** One entry per identity *)

(** C7, as amended.  The entries that one ingestion of a crash report
    appends to the catalog have pairwise distinct identities, so two frames
    that resolve to one identity never yield two entries; and when the
    ingestion returns with fewer than 100 entries in the catalog, every
    identity that a submitted frame resolves to has exactly one of the
    appended entries. *)
Theorem crash_report_dedup (R : FunctionResolver) (report : CrashPOI.crash_report)
    (st : CrashPOI.state) :
  let r := CrashPOI.add_poi R report st in
  ∃ new,
    CrashPOI._pois (CrashPOI.self r.1) = CrashPOI._pois st ++ new
    ∧ NoDup (function_index_key <$> new)
    ∧ (r.2 = Return tt →
       length (CrashPOI._pois (CrashPOI.self r.1)) < 100 →
       ∀ func file line k,
         (func, file, line) ∈ CrashPOI.submitted r.1 →
         CrashPOI.get_funcindex_from_backtrace R func file line = Return (Some k) →
         length (filter (λ p, function_index_key p = k) new) = 1).
Proof.
  cbn zeta. destruct (CrashPOI.add_poi R report st) as [w' o] eqn:Hadd.
  apply add_poi_inv in Hadd as (new & Hnew & Hnd & _ & Hres & _ & Hfull).
  exists new. split; [done|]. split; [done|]. cbn [fst snd].
  intros -> Hlen func file line k Hq Hk.
  apply count_key_NoDup; [done|].
  destruct (Hfull eq_refl k) as [?|?]; [by eapply Hres|done|lia].
Qed.

(** The two-frame report: both frames resolve to the one function, which
    gets a single entry, that of the block's leader. *)
Lemma crash_report_dedup_witness :
  CrashPOI.submitted
    (CrashPOI.add_poi parse_header_resolver two_frame_report fresh_crash_poi).1
  = [("parse_header", "parse.c", 42%Z); ("parse_header", "parse.c", 50%Z)]
  ∧ CrashPOI._block_leaders
      (CrashPOI.self
         (CrashPOI.add_poi parse_header_resolver two_frame_report
            fresh_crash_poi).1) = ["parse_header"]
  ∧ ∃ new,
      CrashPOI._pois
        (CrashPOI.self
           (CrashPOI.add_poi parse_header_resolver two_frame_report
              fresh_crash_poi).1) = [] ++ new
      ∧ NoDup (function_index_key <$> new)
      ∧ length (filter (λ p, function_index_key p = parse_header_key) new) = 1.
Proof.
  split; [vm_compute; reflexivity|]. split; [vm_compute; reflexivity|].
  destruct (crash_report_dedup parse_header_resolver two_frame_report
              fresh_crash_poi) as (new & Hnew & Hnd & Hone).
  exists new. split; [exact Hnew|]. split; [exact Hnd|].
  apply (Hone eq_refl) with (func := "parse_header") (file := "parse.c")
                            (line := 50%Z).
  - vm_compute. lia.
  - vm_compute. right. left.
  - vm_compute. reflexivity.
Defined.

(** C7, counterexample.  In the block of 102 frames the last two resolve to
    one identity, and the ingestion returns with no entry for it: the
    catalog was full when the first of them came.  In the three-frame block
    the entry of the identity shared by the last two frames is not that of a
    block leader. *)
Lemma duplicate_frames_without_leader_entry :
  (let r := CrashPOI.add_poi per_file_resolver (report_of_block long_block)
              fresh_crash_poi in
   r.2 = Return tt
   ∧ drop 100 (CrashPOI.submitted r.1) = [("g", "g.c", 7%Z); ("g", "g.c", 9%Z)]
   ∧ CrashPOI.get_funcindex_from_backtrace per_file_resolver "g" "g.c" 7
     = Return (Some "g.c")
   ∧ CrashPOI.get_funcindex_from_backtrace per_file_resolver "g" "g.c" 9
     = Return (Some "g.c")
   ∧ length (CrashPOI._pois (CrashPOI.self r.1)) = 100
   ∧ filter (λ p, function_index_key p = "g.c") (CrashPOI._pois (CrashPOI.self r.1))
     = [])
  ∧ (let r := CrashPOI.add_poi per_file_resolver (report_of_block three_frame_block)
                fresh_crash_poi in
     r.2 = Return tt
     ∧ CrashPOI.submitted r.1
       = [("alloc_buf", "alloc.c", 5%Z); ("parse_header", "parse.c", 42%Z);
          ("parse_header", "parse.c", 50%Z)]
     ∧ CrashPOI._block_leaders (CrashPOI.self r.1) = ["alloc.c"]
     ∧ filter (λ p, function_index_key p = "parse.c")
         (CrashPOI._pois (CrashPOI.self r.1))
       = [CrashReportPOI "parse.c" None "" three_frame_block false]).
Proof. repeat split; vm_compute; reflexivity. Qed.

(** * Further properties of the call-path engine *)

(** Every path that the search reports for a single target runs from the
    start of the path so far to the target, along edges, without repeating a
    node. *)
Lemma simple_paths_visit_sound cg t : ∀ fuel path next p,
  p ∈ simple_paths_visit fuel cg [t] path next →
  NoDup (path ++ [next]) →
  ∃ l, p = path ++ next :: l ∧ is_chain cg next l
       ∧ last (next :: l) = Some t ∧ NoDup p.
Proof.
  induction fuel as [|fuel IH]; intros path next p;
    rewrite simple_paths_visit_unfold, elem_of_app; intros Hp Hnd.
  - destruct Hp as [Hp|Hp%elem_of_nil]; [|done].
    case_bool_decide as Ht; [|by apply elem_of_nil in Hp].
    apply list_elem_of_singleton in Hp as ->.
    apply list_elem_of_singleton in Ht as ->. by exists [].
  - destruct Hp as [Hp|Hp].
    + case_bool_decide as Ht; [|by apply elem_of_nil in Hp].
      apply list_elem_of_singleton in Hp as ->.
      apply list_elem_of_singleton in Ht as ->. by exists [].
    + destruct (forallb _ [t]); [by apply elem_of_nil in Hp|].
      apply list_elem_of_bind in Hp as (w & Hp & [Hw Hsucc]%list_elem_of_filter).
      destruct (IH _ _ _ Hp) as (l & -> & Hch & Hlast & Hnd').
      { apply NoDup_app. split; [done|]. split; [|apply NoDup_singleton].
        intros x Hx ->%list_elem_of_singleton. done. }
      exists (w :: l). split; [by rewrite <-app_assoc|].
      split; [done|]. split; [by rewrite last_cons_cons|done].
Qed.

Lemma harness_paths_total sink cg :
  ∃ paths, POI.harness_paths sink cg = Return paths.
Proof.
  unfold POI.harness_paths. destruct (has_node cg (POI.entry_node cg)) eqn:Hentry.
  - unfold all_simple_paths. rewrite Hentry.
    destruct (if has_node cg sink then [sink] else chars sink); by eauto.
  - destruct (find_longest_paths_returns cg sink) as (paths & -> & _). by eauto.
Qed.

Lemma collect_call_path_elem sink (graphs : list DiGraph) : ∀ call_path,
  ∃ names, POI.collect_call_path sink graphs call_path = Return names
    ∧ ∀ x, x ∈ names ↔
           x ∈ call_path
           ∨ ∃ cg paths, cg ∈ graphs ∧ POI.harness_paths sink cg = Return paths
                         ∧ x ∈ concat paths.
Proof.
  induction graphs as [|cg graphs IH]; intros call_path.
  - exists call_path. split; [done|]. intros x. split; [by left|].
    intros [?|(cg & ? & ?%elem_of_nil & _)]; done.
  - cbn [POI.collect_call_path].
    destruct (harness_paths_total sink cg) as [paths Hpaths]. rewrite Hpaths. cbn.
    destruct (IH (call_path ++ concat paths)) as (names & -> & Hnames).
    exists names. split; [done|]. intros x. rewrite Hnames, elem_of_app. split.
    + intros [[?|?]|(cg' & paths' & ? & ? & ?)]; [by left| |].
      * right. exists cg, paths. split; [by left|done].
      * right. exists cg', paths'. split; [by right|done].
    + intros [?|(cg' & paths' & [->|?]%elem_of_cons & Hp & ?)]; [by left; left| |].
      * left. right. congruence.
      * right. by exists cg', paths'.
Qed.

Lemma find_paths_single harness cg sink :
  ∃ paths, POI.harness_paths sink cg = Return paths
    ∧ POI._find_paths {[harness := cg]} sink
      = Return (elements (list_to_set ([sink] ++ concat paths) : gset string)).
Proof.
  destruct (harness_paths_total sink cg) as [paths Hpaths]. exists paths.
  split; [done|]. unfold POI._find_paths. rewrite map_to_list_singleton. cbn.
  by rewrite Hpaths.
Qed.

(** X1.  For a single harness graph built from a YAML mapping that holds its
    entry node and the sink, the path search returns, without duplicates,
    exactly the sink and the nodes that lie on a path from the entry node to
    the sink that repeats no node. *)
Theorem find_paths_simple_path_nodes (harness : string)
    (obj : gmap string (list string)) (sink_funcname : string) :
  let cg := POI.gen_callgraph_from_file obj in
  has_node cg (POI.entry_node cg) = true →
  has_node cg sink_funcname = true →
  ∃ names,
    POI._find_paths {[harness := cg]} sink_funcname = Return names
    ∧ NoDup names
    ∧ ∀ n, n ∈ names ↔
           n = sink_funcname
           ∨ on_simple_path cg (POI.entry_node cg) sink_funcname n.
Proof.
  intros cg Hentry Hsink.
  pose proof (closed_gen_callgraph obj) as Hcl. fold cg in Hcl.
  destruct (find_paths_single harness cg sink_funcname) as (paths & Hpaths & ->).
  eexists. split; [done|]. split; [apply NoDup_elements|].
  intros n. rewrite elem_of_elements, elem_of_list_to_set, elem_of_app,
    list_elem_of_singleton.
  unfold POI.harness_paths, all_simple_paths in Hpaths.
  rewrite Hentry, Hsink in Hpaths. injection Hpaths as <-.
  split.
  - intros [?|(p & Hp & Hn)%elem_of_concat]; [by left|right].
    apply simple_paths_visit_sound in Hp as (l & -> & Hch & Hlast & Hnd);
      [|apply NoDup_singleton].
    by exists l.
  - intros [?|(l & Hch & Hnd & Hlast & Hn)]; [by left|right].
    apply elem_of_concat. exists ([] ++ POI.entry_node cg :: l). split; [|done].
    apply simple_paths_visit_complete; [done..|].
    apply (simple_chain_length cg (POI.entry_node cg)); [done| |done..].
    by apply has_node_true.
Qed.

Lemma find_paths_simple_path_nodes_witness :
  ∃ names,
    POI._find_paths {["fuzz_target" := POI.gen_callgraph_from_file scenario_yaml]}
      "sink" = Return names
    ∧ NoDup names
    ∧ ∀ n, n ∈ names ↔
           n = "sink"
           ∨ on_simple_path (POI.gen_callgraph_from_file scenario_yaml)
               (POI.entry_node (POI.gen_callgraph_from_file scenario_yaml))
               "sink" n.
Proof.
  apply (find_paths_simple_path_nodes "fuzz_target" scenario_yaml "sink");
    reflexivity.
Defined.

(** X2.  Whatever graphs the cache holds, the path search returns and never
    raises; its result has no duplicates and is the union over the cached
    harnesses of what the search returns for each harness alone (the sink
    alone when the cache is empty). *)
Theorem find_paths_union (harness_cfg : gmap string DiGraph) (sink_funcname : string) :
  ∃ names,
    POI._find_paths harness_cfg sink_funcname = Return names
    ∧ NoDup names
    ∧ ∀ n, n ∈ names ↔
           n = sink_funcname
           ∨ ∃ harness cg names_h,
               harness_cfg !! harness = Some cg
               ∧ POI._find_paths {[harness := cg]} sink_funcname = Return names_h
               ∧ n ∈ names_h.
Proof.
  unfold POI._find_paths at 1.
  destruct (collect_call_path_elem sink_funcname (map_to_list harness_cfg).*2
              [sink_funcname]) as (call_path & -> & Hcall).
  eexists. split; [done|]. split; [apply NoDup_elements|].
  intros n. rewrite elem_of_elements, elem_of_list_to_set, Hcall,
    list_elem_of_singleton.
  split.
  - intros [?|(cg & paths & [h Hh]%elem_of_cached_graphs & Hpaths & Hn)];
      [by left|right].
    destruct (find_paths_single h cg sink_funcname) as (paths' & Hpaths' & Hfind).
    exists h, cg. eexists. split; [done|]. split; [done|].
    rewrite elem_of_elements, elem_of_list_to_set, elem_of_app.
    right. congruence.
  - intros [?|(h & cg & names_h & Hh & Hfind & Hn)]; [by left|].
    destruct (find_paths_single h cg sink_funcname) as (paths & Hpaths & Hfind').
    assert (names_h = elements (list_to_set ([sink_funcname] ++ concat paths)
                                  : gset string)) as -> by congruence.
    apply elem_of_elements, elem_of_list_to_set, elem_of_app in Hn.
    destruct Hn as [?%list_elem_of_singleton|Hn]; [by left|right].
    exists cg, paths. split; [|done]. apply elem_of_cached_graphs. by eauto.
Qed.

Lemma foldl_push_unseen_elem preds : ∀ (seen : gset string) worklist,
  (∀ x, x ∈ (foldl POI.push_unseen (seen, worklist) preds).1
        ↔ x ∈ seen ∨ x ∈ preds)
  ∧ (∀ x, x ∈ (foldl POI.push_unseen (seen, worklist) preds).2
          ↔ x ∈ worklist ∨ (x ∈ preds ∧ x ∉ seen)).
Proof.
  induction preds as [|p preds IH]; intros seen worklist.
  - cbn. split; intros x; rewrite elem_of_nil; naive_solver.
  - cbn [foldl]. unfold POI.push_unseen at 2 4. cbn [fst snd].
    case_bool_decide as Hp.
    + destruct (IH seen worklist) as [H1 H2]. split; intros x.
      * rewrite H1, elem_of_cons. naive_solver.
      * rewrite H2, elem_of_cons. naive_solver.
    + destruct (IH ({[p]} ∪ seen) (p :: worklist)) as [H1 H2]. split; intros x.
      * rewrite H1, elem_of_cons, elem_of_union, elem_of_singleton. naive_solver.
      * rewrite H2, !elem_of_cons, elem_of_union, elem_of_singleton.
        destruct (decide (x = p)) as [->|]; naive_solver.
Qed.

Lemma calls_predecessors cg p x : calls cg p x ↔ p ∈ predecessors cg x.
Proof. unfold calls. by rewrite has_edge_true, elem_of_predecessors. Qed.

Lemma ancestors_in_closed_set cg sink (seen : gset string) n :
  (∀ p, calls cg p sink → p ∈ seen) →
  (∀ x, x ∈ seen → ∀ p, calls cg p x → p ∈ seen) →
  tc (calls cg) n sink → n ∈ seen.
Proof.
  intros Hsink Hclosed Htc.
  induction Htc as [x y Hxy|x y z Hxy _ IH]; [by apply Hsink|].
  apply (Hclosed y); [by apply IH|done].
Qed.

Lemma longest_paths_loop_ancestors cg sink : ∀ fuel worklist seen longest_paths,
  length worklist + size (dom cg ∖ seen) ≤ fuel →
  (∀ x, x ∈ seen → tc (calls cg) x sink) →
  (∀ x, x ∈ worklist → x ∈ seen) →
  (∀ x, x ∈ seen → x ∈ worklist ∨ ∀ p, calls cg p x → p ∈ seen) →
  (∀ p, calls cg p sink → p ∈ seen) →
  (∀ x, x ∈ longest_paths ↔ x = sink ∨ x ∈ seen) →
  ∃ r, POI.longest_paths_loop fuel cg worklist seen longest_paths = Return r
       ∧ ∀ n, n ∈ r ↔ n = sink ∨ tc (calls cg) n sink.
Proof.
  induction fuel as [|fuel IH];
    intros worklist seen acc Hfuel Hsound Hwl Hclosed Hsink Hacc.
  all: destruct worklist as [|current worklist]; [|try (cbn in Hfuel; lia)].
  1, 2: exists acc; split; [done|]; intros n; rewrite Hacc; split;
    [intros [?|?]; by eauto| intros [?|Htc]; [by left|right]];
    eapply ancestors_in_closed_set; [done| |done];
    intros x Hx; by destruct (Hclosed x Hx) as [?%elem_of_nil|?].
  cbn [POI.longest_paths_loop].
  set (preds := predecessors cg current).
  destruct (foldl_push_unseen_elem preds seen worklist) as [Hseen' Hwl'].
  assert (tc (calls cg) current sink) as Hcur by (apply Hsound, Hwl; by left).
  apply IH.
  - rewrite foldl_push_unseen_measure; [cbn in Hfuel; lia|].
    intros p Hp. apply elem_of_dom. by eapply predecessors_nodes.
  - intros x [?|Hp]%Hseen'; [by apply Hsound|].
    eapply tc_l; [|done]. by apply calls_predecessors.
  - intros x [?|[? ?]]%Hwl'; apply Hseen'; [left; apply Hwl; by right|by right].
  - intros x Hx. rewrite Hwl'. setoid_rewrite Hseen'.
    destruct (decide (x = current)) as [->|Hne].
    { right. intros p Hp. right. by apply calls_predecessors. }
    apply Hseen' in Hx as [Hx|Hx].
    + destruct (Hclosed x Hx) as [[?|?]%elem_of_cons|Hall]; [done|by left; left|].
      right. intros p Hp. left. by apply Hall.
    + destruct (decide (x ∈ seen)) as [Hin|Hnin]; [|by left; right].
      destruct (Hclosed x Hin) as [[?|?]%elem_of_cons|Hall]; [done|by left; left|].
      right. intros p Hp. left. by apply Hall.
  - intros p Hp. apply Hseen'. left. by apply Hsink.
  - intros x. rewrite elem_of_app, Hacc, Hseen'. naive_solver.
Qed.

(** X3.  For a sink that is a node of the graph, the fallback search
    returns one list that holds exactly the sink and its transitive callers:
    every function from which the sink can be reached by one or more calls. *)
Theorem find_longest_paths_ancestors (cg : DiGraph) (sink_node : string) :
  has_node cg sink_node = true →
  ∃ longest_paths,
    POI.find_longest_paths cg sink_node = Return [longest_paths]
    ∧ ∀ n, n ∈ longest_paths ↔ n = sink_node ∨ tc (calls cg) n sink_node.
Proof.
  intros Hsink. unfold POI.find_longest_paths. rewrite Hsink.
  set (preds := predecessors cg sink_node).
  destruct (longest_paths_loop_ancestors cg sink_node (size cg) (reverse preds)
              (list_to_set preds) ([sink_node] ++ preds)) as (r & Hr & Hiff).
  - assert (NoDup preds) as Hnd by apply NoDup_filter, NoDup_nodes.
    assert ((list_to_set preds : gset string) ⊆ dom cg) as Hsub.
    { intros p Hp%elem_of_list_to_set. apply elem_of_dom.
      by eapply predecessors_nodes. }
    rewrite length_reverse, size_difference, size_dom, size_list_to_set by done.
    apply subseteq_size in Hsub. rewrite size_dom, size_list_to_set in Hsub by done.
    lia.
  - intros x Hx%elem_of_list_to_set. apply tc_once. by apply calls_predecessors.
  - intros x Hx. rewrite elem_of_reverse in Hx. by apply elem_of_list_to_set.
  - intros x Hx%elem_of_list_to_set. left. by rewrite elem_of_reverse.
  - intros p Hp. apply elem_of_list_to_set. by apply calls_predecessors.
  - intros x. rewrite elem_of_app, list_elem_of_singleton, elem_of_list_to_set. done.
  - rewrite Hr. cbn. by exists r.
Qed.

Lemma find_longest_paths_ancestors_witness :
  ∃ longest_paths,
    POI.find_longest_paths (POI.gen_callgraph_from_file scenario_yaml) "sink"
    = Return [longest_paths]
    ∧ ∀ n, n ∈ longest_paths ↔
           n = "sink"
           ∨ tc (calls (POI.gen_callgraph_from_file scenario_yaml)) n "sink".
Proof.
  apply (find_longest_paths_ancestors (POI.gen_callgraph_from_file scenario_yaml)
           "sink").
  reflexivity.
Defined.

(** * Further properties of the graph builder *)

Lemma NoDup_successors_add_edge u v (cg : DiGraph) :
  (∀ x, NoDup (successors cg x)) → ∀ x, NoDup (successors (add_edge u v cg) x).
Proof.
  intros Hnd x. unfold add_edge. case_bool_decide as Hin.
  - by rewrite !successors_add_node.
  - rewrite !successors_add_node in Hin. unfold successors at 1.
    destruct (decide (u = x)) as [->|Hne].
    + rewrite lookup_insert_eq. cbn. rewrite !successors_add_node.
      apply NoDup_app. split; [done|]. split; [|apply NoDup_singleton].
      intros y Hy ->%list_elem_of_singleton. done.
    + rewrite lookup_insert_ne by done.
      fold (successors (add_node v (add_node u cg)) x).
      by rewrite !successors_add_node.
Qed.

Lemma NoDup_successors_add_entries (es : list (string * list string)) :
  ∀ cg : DiGraph,
  (∀ x, NoDup (successors cg x)) →
  ∀ x, NoDup (successors (foldl POI.add_callees cg es) x).
Proof.
  induction es as [|[k l] es IH]; intros cg Hnd; [done|].
  cbn [foldl]. apply IH. unfold POI.add_callees. cbn [fst snd].
  clear IH. revert cg Hnd. induction l as [|v l IHl]; intros cg Hnd; [done|].
  cbn [foldl]. apply IHl. by apply NoDup_successors_add_edge.
Qed.

(** X4.  The graph built from a caller-to-callees mapping has as nodes
    exactly the callers with a non-empty list and the callees; both ends of
    every edge are nodes; and no successor list repeats a callee, even when
    the mapping does. *)
Theorem gen_callgraph_well_formed (obj : gmap string (list string)) :
  let cg := POI.gen_callgraph_from_file obj in
  (∀ n, has_node cg n = true ↔
        (∃ callees, obj !! n = Some callees ∧ callees ≠ [])
        ∨ (∃ caller callees, obj !! caller = Some callees ∧ n ∈ callees))
  ∧ (∀ u v, has_edge cg u v = true → has_node cg u = true ∧ has_node cg v = true)
  ∧ (∀ u, NoDup (successors cg u)).
Proof.
  cbn zeta. split; [|split].
  - intros n. by rewrite has_node_true, node_gen_callgraph.
  - intros u v Huv%has_edge_true. rewrite !has_node_true. split.
    + by eapply elem_of_successors_node.
    + by eapply closed_gen_callgraph.
  - apply NoDup_successors_add_entries. intros x. unfold successors.
    rewrite lookup_empty. constructor.
Qed.

(** * Further properties of the resolver front end *)

(** X5.  The outcomes of the front end, each with the case that gives it.
    It raises [AttributeError] exactly when the fuzzy matcher found a key
    whose entry could not be fetched: there is no fall back to the later
    steps.  With the location [function_index_to_source_location] gives for
    the reference, it raises the [ValueError] that reports the reference as
    not resolved exactly when the fuzzy matcher found nothing, the literal
    lookup failed and the location search gave no candidate, and it returns
    [None] exactly when those two steps failed and the entry of the first
    candidate of the location search could not be fetched.  An entry it
    returns was fetched from the store. *)
Theorem get_function_index_from_poi_outcomes (R : FunctionResolver) (s : string) :
  let result := POI.get_function_index_from_poi R s in
  let fuzzy := try_except (find_matching_index R s) None in
  let literal := try_except (get R s) None in
  let candidates :=
    try_except (resolve_source_location R
                  (function_index_to_source_location R s None)) [] in
  (result = Raise AttributeError ↔
     ∃ key, fuzzy = Some key ∧ try_except (get R key) None = None)
  ∧ (result = Raise (ValueError ("Function index " +:+ s
                                   +:+ " could not be resolved.")) ↔
       fuzzy = None ∧ literal = None ∧ candidates = [])
  ∧ (result = Return None ↔
       fuzzy = None ∧ literal = None
       ∧ ∃ key score rest,
           candidates = (key, score) :: rest
           ∧ try_except (get R key) None = None)
  ∧ (∀ fi, result = Return (Some fi) → ∃ key, get R key = Return (Some fi)).
Proof.
  cbn zeta. unfold POI.get_function_index_from_poi.
  destruct (try_except (find_matching_index R s) None) as [key|] eqn:Hmatch.
  { destruct (get R key) as [[fi|]|] eqn:Hget; cbn.
    - split; [split; [done|]; intros (k & ? & Hk); simplify_eq;
              by rewrite Hget in Hk|].
      split; [split; [done|by intros (? & _)]|].
      split; [split; [done|by intros [? _]]|].
      intros fi' ?. simplify_eq. by exists key.
    - split; [split; [|done]; intros _; exists key; by rewrite Hget|].
      split; [split; [done|by intros (? & _)]|].
      split; [split; [done|by intros [? _]]|]. done.
    - split; [split; [|done]; intros _; exists key; by rewrite Hget|].
      split; [split; [done|by intros (? & _)]|].
      split; [split; [done|by intros [? _]]|]. done. }
  destruct (try_except (get R s) None) as [fi|] eqn:Hget.
  { split; [split; [done|by intros (? & ? & _)]|].
    split; [split; [done|by intros (_ & ? & _)]|].
    split; [split; [done|by intros (_ & ? & _)]|].
    intros fi' ?. simplify_eq. exists s.
    destruct (get R s) as [[?|]|]; by simplify_eq/=. }
  destruct (try_except (resolve_source_location R _) [])
    as [|[key score] rest] eqn:Hloc.
  { split; [split; [done|by intros (? & ? & _)]|].
    split; [done|].
    split; [split; [done|by intros (_ & _ & ? & ? & ? & ? & _)]|]. done. }
  destruct (get R key) as [[fi|]|] eqn:Hkey; cbn.
  - split; [split; [done|by intros (? & ? & _)]|].
    split; [split; [done|by intros (_ & _ & ?)]|].
    split; [split; [done|]; intros (_ & _ & k & ? & ? & ? & Hk); simplify_eq;
            by rewrite Hkey in Hk|].
    intros fi' ?. simplify_eq. by exists key.
  - split; [split; [done|by intros (? & ? & _)]|].
    split; [split; [done|by intros (_ & _ & ?)]|].
    split; [split; [|done]; intros _; split; [done|]; split; [done|];
            exists key, score, rest; by rewrite Hkey|]. done.
  - split; [split; [done|by intros (? & ? & _)]|].
    split; [split; [done|by intros (_ & _ & ?)]|].
    split; [split; [|done]; intros _; split; [done|]; split; [done|];
            exists key, score, rest; by rewrite Hkey|]. done.
Qed.

(** X6.  The first step that yields an entry wins: an entry fetched for the
    key of the fuzzy matcher is returned whatever the later steps would
    give; failing a fuzzy match, the entry stored under the reference itself
    is returned; failing both, the entry of the first candidate of the
    location search. *)
Theorem get_function_index_from_poi_first_match (R : FunctionResolver)
    (s : string) (fi : FunctionIndex) :
  (∀ key, find_matching_index R s = Return (Some key) →
          get R key = Return (Some fi) →
          POI.get_function_index_from_poi R s = Return (Some fi))
  ∧ (try_except (find_matching_index R s) None = None →
     get R s = Return (Some fi) →
     POI.get_function_index_from_poi R s = Return (Some fi))
  ∧ (∀ key score rest,
       try_except (find_matching_index R s) None = None →
       try_except (get R s) None = None →
       resolve_source_location R (function_index_to_source_location R s None)
       = Return ((key, score) :: rest) →
       get R key = Return (Some fi) →
       POI.get_function_index_from_poi R s = Return (Some fi)).
Proof.
  unfold POI.get_function_index_from_poi. split; [|split].
  - intros key Hmatch Hget. rewrite Hmatch. cbn. by rewrite Hget.
  - intros Hmatch Hget. rewrite Hmatch, Hget. done.
  - intros key score rest Hmatch Hget Hloc Hkey.
    rewrite Hmatch, Hget, Hloc. cbn. by rewrite Hkey.
Qed.

Lemma get_function_index_from_poi_first_match_witness :
  POI.get_function_index_from_poi parse_header_resolver parse_header_key
  = Return (Some parse_header_index).
Proof.
  apply (proj1 (proj2 (get_function_index_from_poi_first_match
                         parse_header_resolver parse_header_key
                         parse_header_index))); reflexivity.
Defined.

(** * Further properties of the crash-report ingestion *)

(** What one frame does to the entries, the first leader, the cache and the
    record of block leaders. *)
Lemma frame_step_entry R report block frame leader w w' o :
  CrashPOI.frame_step R report block frame leader w = (w', o) →
  let pois := CrashPOI._pois (CrashPOI.self w) in
  let pois' := CrashPOI._pois (CrashPOI.self w') in
  let leaders := CrashPOI._block_leaders (CrashPOI.self w) in
  let leaders' := CrashPOI._block_leaders (CrashPOI.self w') in
  (pois' = pois
   ∨ ∃ file line k flag,
       pois' = pois ++ [CrashReportPOI k (CrashPOI.error_summary report)
                          (CrashPOI.actual_error_str report) block flag]
       ∧ (length pois < 100)
       ∧ CrashPOI.submitted w' = CrashPOI.submitted w ++ [(frame.1, file, line)]
       ∧ CrashPOI.get_funcindex_from_backtrace R frame.1 file line = Return (Some k)
       ∧ (flag = true ↔ CrashPOI.first_leader w = None)
       ∧ is_Some (CrashPOI.first_leader w'))
  ∧ (is_Some (CrashPOI.first_leader w) →
     CrashPOI.first_leader w' = CrashPOI.first_leader w)
  ∧ (CrashPOI.first_leader w = None → is_Some (CrashPOI.first_leader w') →
     (∃ p, pois' = pois ++ [p]) ∨ 100 ≤ length pois)
  ∧ CrashPOI.harness_cfg (CrashPOI.self w') = CrashPOI.harness_cfg (CrashPOI.self w)
  ∧ (dom (CrashPOI._block_leaders_call_path (CrashPOI.self w)) = list_to_set leaders →
     dom (CrashPOI._block_leaders_call_path (CrashPOI.self w')) = list_to_set leaders')
  ∧ ((leaders' = leaders ∧ ∀ c l', o = Return (c, l') → l' = leader)
     ∨ (leader = None ∧ (∃ name, leaders' = leaders ++ [name])
        ∧ ∀ c l', o = Return (c, l') → is_Some l')).
Proof.
  unfold CrashPOI.frame_step. destruct frame as [func loc]. intros Hstep.
  unfold sbind, lift, modify, gets, ret in Hstep.
  repeat (case_match; simplify_eq/=).
  all: repeat match goal with
       | H : bool_decide _ = true |- _ => apply bool_decide_eq_true in H
       | H : bool_decide _ = false |- _ => apply bool_decide_eq_false in H
       | H : (_ <? _) = true |- _ => apply Nat.ltb_lt in H
       | H : (_ <? _) = false |- _ => apply Nat.ltb_ge in H
       end.
  all: split;
    [first [by left
           |right; do 4 eexists; split; [reflexivity|]; split; [done|];
            split; [reflexivity|]; split; [done|]; split; [|by eauto];
            split; first [done | congruence | by intros [? ?]]]|].
  all: split;
    [first [done | by intros [? ?]
           |intros [? Hs]; exfalso; congruence]|].
  all: split;
    [intros Hnone Hsome;
     first [by destruct Hsome as [? ?] | left; by eexists | right; lia
           | rewrite Hnone in Hsome; by destruct Hsome]|].
  all: split; [done|].
  all: split;
    [intros Hdom; first [done
       |rewrite ?dom_insert_L, ?list_to_set_app_L, Hdom; cbn;
        first [set_solver
              |match goal with
               | H : _ !! ?k = Some _ |- _ =>
                   assert (k ∈ dom (CrashPOI._block_leaders_call_path
                                      (CrashPOI.self w)))
                     by (apply elem_of_dom; eauto)
               end; set_solver]]|].
  all: first [left; split; [done|]; intros c l' Hr; by simplify_eq
             |right; split; [done|]; split; [by eexists|];
              intros c l' Hr; simplify_eq; by eauto].
Qed.

Lemma frame_step_entries_inv R report st block frame leader w w' o :
  CrashPOI.frame_step R report block frame leader w = (w', o) →
  block ∈ CrashPOI.matches report →
  frame ∈ line_matches block.2 →
  entries_inv R report st w → entries_inv R report st w'.
Proof.
  intros Hstep Hblock Hframe
    (new & Hnew & Hnone & Hfull & Hcap & Hflag & Hprov & Hcfg & Hdom).
  pose proof (λ q, frame_step_submitted_mono _ _ _ _ _ _ _ _ q Hstep) as Hmono.
  apply frame_step_entry in Hstep
    as (Hpois & Hkeep & Hset & Hcfg' & Hdom' & _). cbn zeta in *.
  destruct Hpois as [Heq|(file & line & k & flag & Heq & Hlen & Hsub & Hres & Hfl & Hsome)].
  - exists new. rewrite Heq. split; [done|].
    split; [|split; [|split; [done|split; [done|split; [|split; [congruence|by apply Hdom']]]]]].
    + intros Hn'. destruct (CrashPOI.first_leader w) as [l|] eqn:Hl; [|by apply Hnone].
      rewrite Hkeep in Hn' by done. done.
    + intros -> Hs. destruct (CrashPOI.first_leader w) as [l|] eqn:Hl.
      * apply Hfull; [done|by eexists].
      * destruct (Hset eq_refl Hs) as [[p Hp]|Hge].
        -- rewrite Heq in Hp. apply (f_equal length) in Hp.
           rewrite length_app in Hp. cbn in Hp. lia.
        -- rewrite Hnew, app_nil_r in Hge. done.
    + intros p (block' & func & file & line & flag & Hp & ? & ? & ? & ?)%Hprov.
      exists block', func, file, line, flag. split; [done|]. split; [done|].
      split; [done|]. split; [by apply Hmono|done].
  - exists (new ++ [CrashReportPOI k (CrashPOI.error_summary report)
                      (CrashPOI.actual_error_str report) block flag]).
    split; [by rewrite Heq, Hnew, app_assoc|].
    split; [|split; [|split; [|split; [|split; [|split; [congruence|by apply Hdom']]]]]].
    + intros Hn'. rewrite Hn' in Hsome. by destruct Hsome.
    + intros Hnil. by destruct new.
    + rewrite Hnew, length_app in Hlen. rewrite length_app. cbn. lia.
    + intros i p Hi. apply lookup_snoc_Some in Hi as [[_ Hi]|[Hi <-]]; [by eapply Hflag|].
      cbn. destruct (CrashPOI.first_leader w) as [l|] eqn:Hl.
      * destruct flag; [by destruct Hfl as [Hfl _]; specialize (Hfl eq_refl)|].
        symmetry. apply bool_decide_eq_false. intros Hz.
        rewrite Hz in Hi. symmetry in Hi. apply length_zero_iff_nil in Hi.
        assert (100 ≤ length (CrashPOI._pois st)) by (apply Hfull; [done|by eexists]).
        rewrite Hnew, Hi, app_nil_r in Hlen. lia.
      * rewrite (Hnone eq_refl) in Hi. cbn in Hi. subst i.
        destruct Hfl as [_ Hfl]. by rewrite Hfl.
    + intros p [Hp| ->%list_elem_of_singleton]%elem_of_app.
      * apply Hprov in Hp as (block' & func & file' & line' & flag' & Hp & ? & ? & ? & ?).
        exists block', func, file', line', flag'. repeat (split; [done|]).
        split; [by apply Hmono|done].
      * exists block, frame.1, file, line, flag. cbn.
        split; [done|]. split; [done|].
        split; [apply list_elem_of_fmap; by exists frame|].
        split; [|done]. rewrite Hsub. apply elem_of_app. right. by left.
Qed.

Lemma walk_frames_entries_inv R report st block frames : ∀ leader w w' o,
  CrashPOI.walk_frames R report block frames leader w = (w', o) →
  block ∈ CrashPOI.matches report →
  (∀ frame, frame ∈ frames → frame ∈ line_matches block.2) →
  entries_inv R report st w → entries_inv R report st w'.
Proof.
  induction frames as [|frame frames IH]; intros leader w w' o Hwalk Hblock Hsub Hinv.
  - cbn in Hwalk. unfold ret in Hwalk. by simplify_eq.
  - cbn [CrashPOI.walk_frames] in Hwalk. unfold sbind in Hwalk.
    destruct (CrashPOI.frame_step R report block frame leader w)
      as [w1 o1] eqn:Hstep.
    apply (frame_step_entries_inv _ _ st) in Hstep;
      [|done|apply Hsub; by left|done].
    destruct o1 as [[[] leader']|e].
    + unfold ret in Hwalk. by simplify_eq.
    + eapply IH; [done|done| |done]. intros f Hf. apply Hsub. by right.
    + by simplify_eq.
Qed.

Lemma walk_blocks_entries_inv R report st blocks : ∀ w w' o,
  CrashPOI.walk_blocks R report blocks w = (w', o) →
  (∀ block, block ∈ blocks → block ∈ CrashPOI.matches report) →
  entries_inv R report st w → entries_inv R report st w'.
Proof.
  induction blocks as [|block blocks IH]; intros w w' o Hwalk Hsub Hinv.
  - cbn in Hwalk. unfold ret in Hwalk. by simplify_eq.
  - cbn [CrashPOI.walk_blocks] in Hwalk. unfold sbind in Hwalk.
    destruct (CrashPOI.walk_frames R report block (line_matches block.2) None w)
      as [w1 o1] eqn:Hframes.
    apply (walk_frames_entries_inv _ _ st) in Hframes;
      [|apply Hsub; by left|done|done].
    destruct o1 as [[]|e].
    + eapply IH; [done| |done]. intros b Hb. apply Hsub. by right.
    + by simplify_eq.
Qed.

Lemma add_poi_entries_inv R report st :
  entries_inv R report st (CrashPOI.add_poi R report st).1.
Proof.
  destruct (CrashPOI.add_poi R report st) as [w' o] eqn:Hadd.
  unfold CrashPOI.add_poi, CrashPOI.parse_poi_from_crash_report in Hadd.
  eapply walk_blocks_entries_inv; [done|done|].
  exists []. cbn. rewrite app_nil_r. split; [done|]. split; [done|].
  split; [by intros _ [? ?]|]. split; [lia|].
  split; [by intros i p ?|]. split; [by intros p ?%elem_of_nil|].
  split; [done|]. by rewrite dom_empty_L.
Qed.

Lemma walk_frames_leaders R report block frames : ∀ leader w w' o,
  CrashPOI.walk_frames R report block frames leader w = (w', o) →
  length (CrashPOI._block_leaders (CrashPOI.self w'))
  ≤ length (CrashPOI._block_leaders (CrashPOI.self w))
    + match leader with Some _ => 0 | None => 1 end.
Proof.
  induction frames as [|frame frames IH]; intros leader w w' o Hwalk.
  - cbn in Hwalk. unfold ret in Hwalk. simplify_eq. lia.
  - cbn [CrashPOI.walk_frames] in Hwalk. unfold sbind in Hwalk.
    destruct (CrashPOI.frame_step R report block frame leader w)
      as [w1 o1] eqn:Hstep.
    apply frame_step_entry in Hstep as (_ & _ & _ & _ & _ & Hleaders).
    cbn zeta in Hleaders.
    assert (length (CrashPOI._block_leaders (CrashPOI.self w1))
            ≤ length (CrashPOI._block_leaders (CrashPOI.self w))
              + match leader with Some _ => 0 | None => 1 end) as Hone.
    { destruct Hleaders as [[-> _]|(-> & [name ->] & _)]; [lia|].
      rewrite length_app. cbn. lia. }
    destruct o1 as [[[] leader']|e].
    + unfold ret in Hwalk. by simplify_eq.
    + apply IH in Hwalk.
      destruct Hleaders as [[Heq Hl]|(-> & [name Heq] & Hl)].
      * rewrite (Hl _ _ eq_refl), Heq in Hwalk. done.
      * destruct (Hl _ _ eq_refl) as [l ->]. rewrite Heq in Hwalk.
        rewrite length_app in Hwalk. cbn in Hwalk. lia.
    + by simplify_eq.
Qed.

Lemma walk_blocks_leaders R report blocks : ∀ w w' o,
  CrashPOI.walk_blocks R report blocks w = (w', o) →
  length (CrashPOI._block_leaders (CrashPOI.self w'))
  ≤ length (CrashPOI._block_leaders (CrashPOI.self w)) + length blocks.
Proof.
  induction blocks as [|block blocks IH]; intros w w' o Hwalk.
  - cbn in Hwalk. unfold ret in Hwalk. simplify_eq. lia.
  - cbn [CrashPOI.walk_blocks] in Hwalk. unfold sbind in Hwalk.
    destruct (CrashPOI.walk_frames R report block (line_matches block.2) None w)
      as [w1 o1] eqn:Hframes.
    apply walk_frames_leaders in Hframes.
    destruct o1 as [[]|e].
    + apply IH in Hwalk. cbn. lia.
    + simplify_eq. cbn. lia.
Qed.

(** X7. Of the entries one ingestion of a crash report appends to the
    catalog, the first is flagged as containing the vulnerability and no
    other is, whatever the report and the resolver and whether or not the
    ingestion ends with an exception. *)
Theorem crash_first_entry_flagged (R : FunctionResolver)
    (report : CrashPOI.crash_report) (st : CrashPOI.state) :
  ∃ new,
    CrashPOI._pois (CrashPOI.self (CrashPOI.add_poi R report st).1)
    = CrashPOI._pois st ++ new
    ∧ ∀ i p, new !! i = Some p → contains_vulnerability p = bool_decide (i = 0).
Proof.
  destruct (add_poi_entries_inv R report st)
    as (new & Hnew & _ & _ & _ & Hflag & _).
  by exists new.
Qed.


(** X9. After an ingestion the keys of the leaders' call-path table are
    exactly the recorded block leaders, there are at most as many leaders as
    the report has stack-trace blocks, and the call-graph cache is the one
    the object had. *)
Theorem crash_block_leaders (R : FunctionResolver)
    (report : CrashPOI.crash_report) (st : CrashPOI.state) :
  let self' := CrashPOI.self (CrashPOI.add_poi R report st).1 in
  dom (CrashPOI._block_leaders_call_path self')
  = list_to_set (CrashPOI._block_leaders self')
  ∧ length (CrashPOI._block_leaders self') ≤ length (CrashPOI.matches report)
  ∧ CrashPOI.harness_cfg self' = CrashPOI.harness_cfg st.
Proof.
  destruct (add_poi_entries_inv R report st)
    as (new & _ & _ & _ & _ & _ & _ & Hcfg & Hdom).
  split; [done|]. split; [|done].
  destruct (CrashPOI.add_poi R report st) as [w' o] eqn:Hadd.
  unfold CrashPOI.add_poi, CrashPOI.parse_poi_from_crash_report in Hadd.
  by apply walk_blocks_leaders in Hadd.
Qed.

(** X10. An ingestion only appends to the catalog, and never past 100
    entries: a catalog that already holds 100 entries or more is left as it
    is, whatever the report. *)
Theorem crash_add_poi_catalog (R : FunctionResolver)
    (report : CrashPOI.crash_report) (st : CrashPOI.state) :
  ∃ new,
    CrashPOI._pois (CrashPOI.self (CrashPOI.add_poi R report st).1)
    = CrashPOI._pois st ++ new
    ∧ length new ≤ 100 - length (CrashPOI._pois st).
Proof.
  destruct (add_poi_entries_inv R report st)
    as (new & Hnew & _ & _ & Hcap & _).
  by exists new.
Qed.

(** ** Where the walk of a block stops *)

(** X11. The walk of a block stops at the first frame whose function name
    contains the fuzz-entry or the process-entry symbol: that frame and the
    frames below it have no effect, whatever they are. *)
Theorem walk_frames_stops_at_entry R report block func loc post :
  is_infix "LLVMFuzzerTestOneInput" func = true
  ∨ is_infix "__libc_start_main" func = true →
  ∀ pre leader w,
    CrashPOI.walk_frames R report block (pre ++ (func, loc) :: post) leader w
    = CrashPOI.walk_frames R report block pre leader w.
Proof.
  intros Hstop. induction pre as [|frame pre IH]; intros leader w.
  - cbn [app CrashPOI.walk_frames]. unfold sbind, CrashPOI.frame_step, ret.
    destruct Hstop as [Hs|Hs]; rewrite Hs; [reflexivity|].
    destruct (is_infix "LLVMFuzzerTestOneInput" func); reflexivity.
  - cbn [app CrashPOI.walk_frames]. unfold sbind.
    destruct (CrashPOI.frame_step R report block frame leader w) as [w1 [[[] l]|e]];
      [done|apply IH|done].
Qed.

(** ** Locations without a column *)

(** X12. A frame whose location holds fewer than two colons (a file and a
    line, no column) is skipped: the walk state is left as it was, no query
    is made, and the loop goes on with the same leader. *)
Theorem frame_step_short_location R report block func loc leader w :
  walks_on func →
  length (filter (λ c, c = ":"%char) (list_ascii_of_string loc)) < 2 →
  CrashPOI.frame_step R report block (func, loc) leader w
  = (w, Return (LoopContinue, leader)).
Proof.
  intros [Hfuzz Hlibc] Hcolons. unfold CrashPOI.frame_step.
  rewrite Hfuzz, Hlibc.
  pose proof (length_rsplit ":" 2 loc) as Hlen.
  destruct (rsplit ":" 2 loc) as [|a [|b [|c [|d l]]]]; try reflexivity.
  cbn [length] in Hlen. lia.
Qed.

Lemma frame_step_short_location_witness :
  CrashPOI.frame_step per_file_resolver (report_of_block frame_without_column)
    frame_without_column ("parse_header", "/src/lib/parse.c:42") None
    {| CrashPOI.self := fresh_crash_poi; CrashPOI.seen_func_indices := ∅;
       CrashPOI.first_leader := None; CrashPOI.submitted := [] |}
  = ({| CrashPOI.self := fresh_crash_poi; CrashPOI.seen_func_indices := ∅;
        CrashPOI.first_leader := None; CrashPOI.submitted := [] |},
     Return (LoopContinue, None)).
Proof.
  apply frame_step_short_location.
  - split; reflexivity.
  - vm_compute. lia.
Defined.

Lemma walk_frames_stops_at_entry_witness :
  CrashPOI.walk_frames per_file_resolver two_frame_report two_frame_block
    ([("parse_header", "/src/lib/parse.c:42:7")]
       ++ ("LLVMFuzzerTestOneInput", "/src/fuzz/fuzz.c:12:3")
       :: [("main", "/src/fuzz/main.c:3:1")]) None
    {| CrashPOI.self := fresh_crash_poi; CrashPOI.seen_func_indices := ∅;
       CrashPOI.first_leader := None; CrashPOI.submitted := [] |}
  = CrashPOI.walk_frames per_file_resolver two_frame_report two_frame_block
      [("parse_header", "/src/lib/parse.c:42:7")] None
      {| CrashPOI.self := fresh_crash_poi; CrashPOI.seen_func_indices := ∅;
         CrashPOI.first_leader := None; CrashPOI.submitted := [] |}.
Proof.
  apply walk_frames_stops_at_entry. left. reflexivity.
Defined.

(** ** The lookup of a frame's function *)

Lemma indices_at_line_spec R line : ∀ keys found,
  CrashPOI.indices_at_line R keys line = Return found →
  ∀ key, key ∈ found ↔
    key ∈ keys ∧ ∃ fi, get R key = Return (Some fi)
                       ∧ (start_line fi ≤ line ≤ end_line fi)%Z.
Proof.
  induction keys as [|k keys IH]; intros found Hfound key.
  - cbn in Hfound. simplify_eq. split; [by intros ?%elem_of_nil|].
    by intros [?%elem_of_nil _].
  - cbn in Hfound. destruct (get R k) as [fi|] eqn:Hget; [|done].
    cbn in Hfound.
    destruct (CrashPOI.indices_at_line R keys line) as [rest|] eqn:Hrest; [|done].
    cbn in Hfound. specialize (IH rest eq_refl key).
    assert (key ∈ rest → key ∈ k :: keys ∧ ∃ fi, get R key = Return (Some fi)
                       ∧ (start_line fi ≤ line ≤ end_line fi)%Z) as Hrest_ok.
    { intros (? & ?)%IH. split; [by right|done]. }
    destruct fi as [fi|].
    + case_bool_decide as Hspan; simplify_eq.
      * split.
        -- intros [->|?]%elem_of_cons; [|by apply Hrest_ok].
           split; [by left|by eauto].
        -- intros [[->|?]%elem_of_cons Hfi]; [by left|]. right. by apply IH.
      * split; [done|].
        intros [[->|?]%elem_of_cons (fi' & Hfi & Hin)]; [|by apply IH; eauto].
        rewrite Hget in Hfi. by simplify_eq.
    + simplify_eq. split; [done|].
      intros [[->|?]%elem_of_cons (fi' & Hfi & Hin)]; [|by apply IH; eauto].
      rewrite Hget in Hfi. by simplify_eq.
Qed.

(** X13. What the lookup of a frame answers, in both ingestion pipelines:
    the candidates handed to the focus-scope matcher are exactly the keys of
    the file whose entry spans the line and whose text contains the file
    name; the answer is one of the values of the matcher's table, and it is
    [None] exactly when that table is empty. *)
Theorem get_funcindex_lookup {A} (R : FunctionResolver) (func_name : A)
    (file_path : string) (line_number : Z) (r : option string) :
  CrashPOI.get_funcindex_from_backtrace R func_name file_path line_number = Return r →
  OSSFuzzPOI.get_funcindex_from_json R func_name file_path line_number = Return r
  ∧ ∃ keys candidates matching,
      find_by_filename R file_path = Return keys
      ∧ (∀ key, key ∈ candidates ↔
           key ∈ keys ∧ is_infix file_path key = true
           ∧ ∃ fi, get R key = Return (Some fi)
                   ∧ (start_line fi ≤ line_number ≤ end_line fi)%Z)
      ∧ find_matching_indices R candidates = Return matching
      ∧ match r with
        | Some k => ∃ key, matching !! key = Some k
        | None => matching = ∅
        end.
Proof.
  intros Hlookup. split; [exact Hlookup|].
  unfold CrashPOI.get_funcindex_from_backtrace in Hlookup.
  destruct (find_by_filename R file_path) as [keys|] eqn:Hkeys; [|done].
  cbn in Hlookup.
  destruct (CrashPOI.indices_at_line R keys line_number) as [found|] eqn:Hfound;
    [|done].
  cbn in Hlookup.
  destruct (find_matching_indices R _) as [matching|] eqn:Hmatching; [|done].
  cbn in Hlookup. simplify_eq.
  exists keys, (filter (λ x, is_infix file_path x = true) found), matching.
  split; [done|]. split; [|split; [done|]].
  - intros key. rewrite list_elem_of_filter, (indices_at_line_spec _ _ _ _ Hfound).
    naive_solver.
  - destruct (head _) as [k|] eqn:Hhead.
    + apply head_Some_elem_of, elem_of_elements, elem_of_list_to_set in Hhead.
      apply list_elem_of_fmap in Hhead as ([key k'] & -> & Hin).
      apply elem_of_map_to_list in Hin. by exists key.
    + apply head_None in Hhead. apply elements_empty_inv in Hhead.
      apply map_eq. intros key. rewrite lookup_empty.
      destruct (matching !! key) as [k|] eqn:Hk; [|done]. exfalso.
      assert (k ∈ (list_to_set (map_to_list matching).*2 : gset string)) as Hin.
      { apply elem_of_list_to_set, list_elem_of_fmap. exists (key, k).
        split; [done|]. by apply elem_of_map_to_list. }
      rewrite Hhead in Hin. by apply elem_of_empty in Hin.
Qed.

Lemma get_funcindex_lookup_witness :
  OSSFuzzPOI.get_funcindex_from_json parse_header_resolver "parse_header"
    "/src/lib/parse.c" 42 = Return (Some parse_header_key)
  ∧ ∃ keys candidates matching,
      find_by_filename parse_header_resolver "/src/lib/parse.c" = Return keys
      ∧ (∀ key, key ∈ candidates ↔
           key ∈ keys ∧ is_infix "/src/lib/parse.c" key = true
           ∧ ∃ fi, get parse_header_resolver key = Return (Some fi)
                   ∧ (start_line fi ≤ 42 ≤ end_line fi)%Z)
      ∧ find_matching_indices parse_header_resolver candidates = Return matching
      ∧ ∃ key, matching !! key = Some parse_header_key.
Proof.
  apply (get_funcindex_lookup parse_header_resolver "parse_header"
           "/src/lib/parse.c" 42 (Some parse_header_key)).
  vm_compute. reflexivity.
Defined.

(** ** The leaders' call paths *)

(** What one frame does to the leaders' call-path table: nothing, a fresh
    empty path under the name of the frame's function, or that name appended
    to the path of the block's leader. *)
Lemma frame_step_table R report block frame leader w w' o :
  CrashPOI.frame_step R report block frame leader w = (w', o) →
  let table := CrashPOI._block_leaders_call_path (CrashPOI.self w) in
  let table' := CrashPOI._block_leaders_call_path (CrashPOI.self w') in
  table' = table
  ∨ ∃ name, resolved_name R (CrashPOI.submitted w') name
            ∧ (table' = <[name := []]> table
               ∨ ∃ leader_name suffix,
                   table !! leader_name = Some suffix
                   ∧ table' = <[leader_name := suffix ++ [name]]> table).
Proof.
  unfold CrashPOI.frame_step. destruct frame as [func loc]. intros Hstep.
  unfold sbind, lift, modify, gets, ret in Hstep.
  repeat (case_match; simplify_eq/=).
  all: first [by left|right].
  all: eexists; split;
    [eexists _, _, _, _; split; [apply elem_of_app; right; by left|by split]|].
  all: first [by left | right; by eauto].
Qed.

Lemma resolved_name_mono R queries queries' name :
  (∀ q, q ∈ queries → q ∈ queries') →
  resolved_name R queries name → resolved_name R queries' name.
Proof.
  intros Hsub (func & file & line & k & Hq & Hk & Hname).
  exists func, file, line, k. by eauto.
Qed.

Lemma frame_step_table_inv R report block frame leader w w' o :
  CrashPOI.frame_step R report block frame leader w = (w', o) →
  map_Forall (λ l names, Forall (resolved_name R (CrashPOI.submitted w)) (l :: names))
    (CrashPOI._block_leaders_call_path (CrashPOI.self w)) →
  map_Forall (λ l names, Forall (resolved_name R (CrashPOI.submitted w')) (l :: names))
    (CrashPOI._block_leaders_call_path (CrashPOI.self w')).
Proof.
  intros Hstep Hinv.
  pose proof (λ q, frame_step_submitted_mono _ _ _ _ _ _ _ _ q Hstep) as Hmono.
  assert (map_Forall (λ l names,
            Forall (resolved_name R (CrashPOI.submitted w')) (l :: names))
            (CrashPOI._block_leaders_call_path (CrashPOI.self w))) as Hinv'.
  { eapply map_Forall_impl; [exact Hinv|]. cbn. intros l names Hall.
    eapply Forall_impl; [exact Hall|]. intros n. by apply resolved_name_mono. }
  apply frame_step_table in Hstep
    as [->|(name & Hname & [->|(lname & suffix & Hl & ->)])]; cbn zeta in *.
  - done.
  - apply map_Forall_insert_2; [|done]. by apply Forall_singleton.
  - apply map_Forall_insert_2; [|done].
    specialize (Hinv' _ _ Hl). cbn in Hinv'.
    apply Forall_cons in Hinv' as [Hlname Hsuffix].
    apply Forall_cons. split; [done|]. apply Forall_app. split; [done|].
    by apply Forall_singleton.
Qed.

Lemma walk_frames_table_inv R report block frames : ∀ leader w w' o,
  CrashPOI.walk_frames R report block frames leader w = (w', o) →
  map_Forall (λ l names, Forall (resolved_name R (CrashPOI.submitted w)) (l :: names))
    (CrashPOI._block_leaders_call_path (CrashPOI.self w)) →
  map_Forall (λ l names, Forall (resolved_name R (CrashPOI.submitted w')) (l :: names))
    (CrashPOI._block_leaders_call_path (CrashPOI.self w')).
Proof.
  induction frames as [|frame frames IH]; intros leader w w' o Hwalk Hinv.
  - cbn in Hwalk. unfold ret in Hwalk. by simplify_eq.
  - cbn [CrashPOI.walk_frames] in Hwalk. unfold sbind in Hwalk.
    destruct (CrashPOI.frame_step R report block frame leader w)
      as [w1 o1] eqn:Hstep.
    eapply frame_step_table_inv in Hstep; [|done].
    destruct o1 as [[[] leader']|e].
    + unfold ret in Hwalk. by simplify_eq.
    + by eapply IH.
    + by simplify_eq.
Qed.

Lemma walk_blocks_table_inv R report blocks : ∀ w w' o,
  CrashPOI.walk_blocks R report blocks w = (w', o) →
  map_Forall (λ l names, Forall (resolved_name R (CrashPOI.submitted w)) (l :: names))
    (CrashPOI._block_leaders_call_path (CrashPOI.self w)) →
  map_Forall (λ l names, Forall (resolved_name R (CrashPOI.submitted w')) (l :: names))
    (CrashPOI._block_leaders_call_path (CrashPOI.self w')).
Proof.
  induction blocks as [|block blocks IH]; intros w w' o Hwalk Hinv.
  - cbn in Hwalk. unfold ret in Hwalk. by simplify_eq.
  - cbn [CrashPOI.walk_blocks] in Hwalk. unfold sbind in Hwalk.
    destruct (CrashPOI.walk_frames R report block (line_matches block.2) None w)
      as [w1 o1] eqn:Hframes.
    eapply walk_frames_table_inv in Hframes; [|done].
    destruct o1 as [[]|e]; [by eapply IH|by simplify_eq].
Qed.

(** X14. After the ingestion of a crash report, every name on the call path
    that [CrashPOI.get_call_path_to] gives for a sink is [main], the sink
    itself, or the name of a function that the lookup gave for a frame the
    ingestion queried: the paths of an earlier report are gone. *)
Theorem crash_call_path_names (R : FunctionResolver)
    (report : CrashPOI.crash_report) (st : CrashPOI.state) (sink_funcname : string) :
  let w' := (CrashPOI.add_poi R report st).1 in
  ∀ name, name ∈ CrashPOI.get_call_path_to (CrashPOI.self w') sink_funcname →
    name = "main" ∨ name = sink_funcname
    ∨ resolved_name R (CrashPOI.submitted w') name.
Proof.
  cbn zeta. destruct (CrashPOI.add_poi R report st) as [w' o] eqn:Hadd.
  unfold CrashPOI.add_poi, CrashPOI.parse_poi_from_crash_report in Hadd.
  apply walk_blocks_table_inv in Hadd; [|apply map_Forall_empty].
  cbn [fst]. intros name. unfold CrashPOI.get_call_path_to.
  rewrite !elem_of_app, list_elem_of_singleton.
  intros [Hmain|[?|Hpath]]; [left|by right; left|right; right].
  - repeat (case_match; try by apply elem_of_nil in Hmain).
    by apply list_elem_of_singleton in Hmain.
  - destruct (CrashPOI._block_leaders_call_path (CrashPOI.self w') !! sink_funcname)
      as [names|] eqn:Hnames; [|by apply elem_of_nil in Hpath].
    specialize (Hadd _ _ Hnames). cbn in Hadd, Hpath.
    apply Forall_cons in Hadd as [_ Hall].
    by eapply Forall_forall in Hall.
Qed.

Lemma crash_call_path_names_witness :
  "parse.c" = "main" ∨ "parse.c" = "alloc.c"
  ∨ resolved_name per_file_resolver
      (CrashPOI.submitted
         (CrashPOI.add_poi per_file_resolver (report_of_block three_frame_block)
            fresh_crash_poi).1) "parse.c".
Proof.
  apply (crash_call_path_names per_file_resolver (report_of_block three_frame_block)
           fresh_crash_poi "alloc.c" "parse.c").
  apply (bool_decide_unpack _). vm_compute. exact I.
Defined.

(** * The stack-frame pattern *)

(** A match of a pattern that begins with a group-free part splits into a
    text of that part and a match of the rest. *)
Lemma re_match_app r r' : group_free r → ∀ s opened caps res,
  re_match (r ++ r') s opened caps = Some res →
  ∃ cs s', s = cs ++ s' ∧ matches_items r cs
           ∧ re_match r' s' opened caps = Some res.
Proof.
  induction r as [|i r IH]; intros Hfree s opened caps res Hm.
  - by exists [], s.
  - apply Forall_cons in Hfree as [[Hopen Hclose] Hfree].
    specialize (IH Hfree).
    destruct i as [cl|greedy cl| |]; [| |done..].
    + cbn in Hm. destruct s as [|c s]; [done|].
      destruct (in_class cl c) eqn:Hc; [|done].
      apply IH in Hm as (cs & s' & -> & Hcs & Hm).
      exists (c :: cs), s'. split; [done|]. split; [|done].
      cbn. by exists c, cs.
    + cbn [app re_match] in Hm.
      assert (∃ cs s', s = cs ++ s' ∧ cs ≠ []
                ∧ Forall (λ c, in_class cl c = true) cs
                ∧ re_match (r ++ r') s' opened caps = Some res)
        as (cs & s' & -> & Hne & Hcs & Hm').
      { clear IH. induction s as [|c s IHs]; [done|].
        destruct (in_class cl c) eqn:Hc; [|done].
        assert (re_match (r ++ r') s opened caps = Some res
                ∨ ∃ cs s', s = cs ++ s' ∧ cs ≠ []
                    ∧ Forall (λ c, in_class cl c = true) cs
                    ∧ re_match (r ++ r') s' opened caps = Some res) as [Hnow|Hlater].
        { destruct greedy.
          - match type of Hm with
            | match ?rec with _ => _ end = _ => destruct rec as [m|] eqn:Hrec
            end.
            + right. apply IHs. by simplify_eq.
            + by left.
          - destruct (re_match (r ++ r') s opened caps) as [m|] eqn:Hrec.
            + left. by simplify_eq.
            + right. by apply IHs. }
        - exists [c], s. split; [done|]. split; [done|].
          split; [by apply Forall_singleton|done].
        - destruct Hlater as (cs & s' & -> & _ & Hcs & Hm').
          exists (c :: cs), s'. split; [done|]. split; [done|].
          split; [by apply Forall_cons|done]. }
      apply IH in Hm' as (cs' & s'' & -> & Hcs' & Hm').
      exists (cs ++ cs'), s''. split; [by rewrite app_assoc|]. split; [|done].
      cbn. by exists cs, cs'.
Qed.

Lemma take_consumed {A} (cs s : list A) :
  take (length (cs ++ s) - length s) (cs ++ s) = cs.
Proof.
  rewrite length_app, Nat.add_sub. by rewrite take_app_length.
Qed.

(** The groups of a match of [line_pattern]: a function text without a
    newline, and a location made of a slash, characters that are not white
    space, a colon and digits. *)
Lemma re_match_line_pattern s rest groups :
  re_match line_pattern s [] [] = Some (rest, groups) →
  ∃ func loc,
    groups = [string_of_list_ascii func; string_of_list_ascii loc]
    ∧ matches_items [Plus false CAny] func
    ∧ matches_items [One (CLit "/"); Plus true CNonSpace; One (CLit ":");
                     Plus true CDigit] loc.
Proof.
  intros Hm.
  change line_pattern with
    ([One (CLit "#"); Plus true CDigit; Plus true CSpace; Plus true CNonSpace;
      Plus true CSpace; One (CLit "i"); One (CLit "n"); Plus true CSpace]
       ++ GroupOpen :: [Plus false CAny]
       ++ GroupClose :: [Plus true CSpace]
       ++ GroupOpen :: [One (CLit "/"); Plus true CNonSpace; One (CLit ":");
                        Plus true CDigit]
       ++ [GroupClose]) in Hm.
  apply re_match_app in Hm as (c1 & s1 & -> & _ & Hm);
    [|by repeat constructor].
  cbn [re_match] in Hm.
  apply re_match_app in Hm as (func & s2 & -> & Hfunc & Hm);
    [|by repeat constructor].
  cbn [re_match] in Hm. rewrite take_consumed in Hm.
  apply re_match_app in Hm as (c3 & s3 & -> & _ & Hm);
    [|by repeat constructor].
  cbn [re_match] in Hm.
  apply re_match_app in Hm as (loc & s4 & -> & Hloc & Hm);
    [|by repeat constructor].
  cbn [re_match] in Hm. rewrite take_consumed in Hm. simplify_eq.
  by exists func, loc.
Qed.

Lemma findall_from_match r : ∀ s skip groups,
  groups ∈ findall_from r s skip →
  ∃ s' rest, re_match r s' [] [] = Some (rest, groups).
Proof.
  induction s as [|c s IH]; intros skip groups Hin; [by apply elem_of_nil in Hin|].
  cbn [findall_from] in Hin. destruct skip as [|skip]; [|by eapply IH].
  destruct (re_match r (c :: s) [] []) as [[rest groups']|] eqn:Hm; [|by eapply IH].
  apply elem_of_cons in Hin as [->|Hin]; [by eauto|by eapply IH].
Qed.

Lemma string_of_list_ascii_app (a b : list ascii) :
  string_of_list_ascii (a ++ b) = string_of_list_ascii a +:+ string_of_list_ascii b.
Proof. induction a as [|c a IH]; [done|]. cbn. by rewrite IH. Qed.

Lemma string_of_list_ascii_nonempty (cs : list ascii) :
  cs ≠ [] → string_of_list_ascii cs ≠ "".
Proof. by destruct cs. Qed.

(** X15. What the stack-frame pattern can find in ASCII text: the function
    text of a match is not empty and holds no newline, and its location is
    a slash, one or more characters that are not white space, a colon and a
    number.  So every location that the frame walk gets from an ASCII block
    is an absolute path with at least one colon and a numeric last
    component. *)
Theorem line_matches_shape (text func loc : string) :
  is_ascii_text text = true →
  (func, loc) ∈ line_matches text →
  (func ≠ "" ∧ Forall (λ c, c ≠ "010"%char) (list_ascii_of_string func))
  ∧ ∃ path digits,
      loc = "/" +:+ path +:+ ":" +:+ digits
      ∧ path ≠ ""
      ∧ Forall (λ c, is_space c = false) (list_ascii_of_string path)
      ∧ is_number digits.
Proof.
  unfold line_matches, findall.
  intros _ (groups & Hin & Hgroups)%list_elem_of_omap.
  apply findall_from_match in Hin as (s' & rest & Hm).
  apply re_match_line_pattern in Hm as (f & l & -> & Hf & Hl).
  simplify_eq. cbn in Hf, Hl.
  destruct Hf as (cs & ? & -> & Hne & Hcs & ->).
  destruct Hl as (c0 & ? & -> & Hc0 & p & ? & -> & Hp & Hpcs & c1 & ? & -> & Hc1
                  & d & ? & -> & Hd & Hdcs & ->).
  apply bool_decide_eq_true in Hc0, Hc1. subst c0 c1.
  rewrite !app_nil_r. split.
  - split; [by apply string_of_list_ascii_nonempty|].
    rewrite list_ascii_of_string_of_list_ascii.
    eapply Forall_impl; [exact Hcs|]. cbn. intros c Hc ->. done.
  - exists (string_of_list_ascii p), (string_of_list_ascii d).
    split; [|split; [|split; [|split]]].
    + change ("/"%char :: p ++ ":"%char :: d) with (["/"%char] ++ p ++ [":"%char] ++ d).
      by rewrite !string_of_list_ascii_app.
    + by apply string_of_list_ascii_nonempty.
    + rewrite list_ascii_of_string_of_list_ascii.
      eapply Forall_impl; [exact Hpcs|]. cbn. intros c Hc.
      by apply negb_true_iff in Hc.
    + by apply string_of_list_ascii_nonempty.
    + by rewrite list_ascii_of_string_of_list_ascii.
Qed.

Lemma line_matches_shape_witness :
  ("parse_header" ≠ ""
   ∧ Forall (λ c, c ≠ "010"%char) (list_ascii_of_string "parse_header"))
  ∧ ∃ path digits,
      "/src/lib/parse.c:42:7" = "/" +:+ path +:+ ":" +:+ digits
      ∧ path ≠ ""
      ∧ Forall (λ c, is_space c = false) (list_ascii_of_string path)
      ∧ is_number digits.
Proof.
  apply (line_matches_shape two_frame_block.2 "parse_header" "/src/lib/parse.c:42:7").
  - vm_compute. reflexivity.
  - vm_compute. left.
Defined.

(** * Further properties of the coverage-gap ingestion *)

(** Below 101 entries, what one report entry appends and how the loop goes
    on do not depend on the catalog. *)
Lemma target_step_independent R resolve function_obj :
  ∃ new o,
    length new ≤ 1
    ∧ (new ≠ [] → o = Return LoopContinue)
    ∧ (o ≠ Return LoopBreak)
    ∧ ∀ pois, length pois ≤ 100 →
        OSSFuzzPOI.target_step R resolve function_obj pois = (pois ++ new, o).
Proof.
  unfold OSSFuzzPOI.target_step.
  destruct (OSSFuzzPOI.is_reached_is_False function_obj).
  { exists [], (Return LoopContinue). split; [cbn; lia|]. split; [done|]. split; [done|].
    intros pois _. by rewrite app_nil_r. }
  unfold sbind, lift, modify, gets, ret.
  destruct (OSSFuzzPOI.resolved_filename _ _) as [filename|e].
  2:{ exists [], (Raise e). split; [cbn; lia|]. split; [done|]. split; [done|].
      intros pois _. by rewrite app_nil_r. }
  destruct (OSSFuzzPOI.py_int (default _ (_ !! "source_line_begin")))
    as [start_line|e].
  2:{ exists [], (Raise e). split; [cbn; lia|]. split; [done|]. split; [done|].
      intros pois _. by rewrite app_nil_r. }
  destruct (OSSFuzzPOI.py_int (default _ (_ !! "source_line_end")))
    as [end_line|e].
  2:{ exists [], (Raise e). split; [cbn; lia|]. split; [done|]. split; [done|].
      intros pois _. by rewrite app_nil_r. }
  destruct (bool_decide (start_line = 0%Z) || bool_decide (end_line = 0%Z)).
  { exists [], (Return LoopContinue). split; [cbn; lia|]. split; [done|]. split; [done|].
    intros pois _. by rewrite app_nil_r. }
  destruct (OSSFuzzPOI.get_funcindex_from_json _ _ _ _) as [[k|]|e].
  - eexists [_], (Return LoopContinue). split; [cbn; lia|]. split; [done|].
    split; [done|].
    intros pois Hlen. apply Nat.ltb_ge in Hlen. by rewrite Hlen.
  - exists [], (Return LoopContinue). split; [cbn; lia|]. split; [done|]. split; [done|].
    intros pois _. by rewrite app_nil_r.
  - exists [], (Raise e). split; [cbn; lia|]. split; [done|]. split; [done|].
    intros pois _. by rewrite app_nil_r.
Qed.

(** X16. When the catalog and the report together hold at most 101 entries,
    the coverage-gap ingestion is blind to what the catalog holds: the
    entries it appends and its outcome are those it gives on an empty
    catalog.  In particular an identity that is already in the catalog is
    appended again. *)
Theorem optimal_targets_catalog_independent (R : FunctionResolver)
    (resolve : string → string) (functions : list (gmap string json))
    (pois : list poi) :
  length pois + length functions ≤ 101 →
  OSSFuzzPOI.parse_poi_from_optimal_targets R resolve functions pois
  = (pois ++ (OSSFuzzPOI.parse_poi_from_optimal_targets R resolve functions []).1,
     (OSSFuzzPOI.parse_poi_from_optimal_targets R resolve functions []).2).
Proof.
  intros Hlen.
  assert (∀ pois1 pois2,
            length pois1 + length functions ≤ 101 →
            length pois2 + length functions ≤ 101 →
            ∃ new o,
              OSSFuzzPOI.parse_poi_from_optimal_targets R resolve functions pois1
              = (pois1 ++ new, o)
              ∧ OSSFuzzPOI.parse_poi_from_optimal_targets R resolve functions pois2
                = (pois2 ++ new, o)) as Hboth.
  { clear pois Hlen.
    induction functions as [|function_obj functions IH]; intros pois1 pois2 H1 H2.
    - exists [], (Return tt). cbn. unfold ret. by rewrite !app_nil_r.
    - cbn [OSSFuzzPOI.parse_poi_from_optimal_targets]. unfold sbind.
      destruct (target_step_independent R resolve function_obj)
        as (new & o & Hnew & _ & Hbreak & Hstep).
      cbn [length] in H1, H2.
      rewrite (Hstep pois1), (Hstep pois2) by lia.
      destruct o as [[]|e]; [done| |by exists new, (Raise e)].
      destruct (IH (pois1 ++ new) (pois2 ++ new)) as (new' & o' & Hp1 & Hp2);
        [rewrite length_app; lia..|].
      exists (new ++ new'), o'. by rewrite Hp1, Hp2, !app_assoc. }
  destruct (Hboth pois [] Hlen) as (new & o & -> & ->); [cbn; lia|]. done.
Qed.

Lemma optimal_targets_catalog_independent_witness :
  OSSFuzzPOI.parse_poi_from_optimal_targets parse_header_resolver id
    [parse_header_target]
    [CoverageGapPOI parse_header_key (JFloat (25 # 2)) (JInt 7)]
  = ([CoverageGapPOI parse_header_key (JFloat (25 # 2)) (JInt 7)]
       ++ (OSSFuzzPOI.parse_poi_from_optimal_targets parse_header_resolver id
             [parse_header_target] []).1,
     (OSSFuzzPOI.parse_poi_from_optimal_targets parse_header_resolver id
        [parse_header_target] []).2).
Proof.
  apply optimal_targets_catalog_independent. cbn. lia.
Defined.

Lemma parse_optimal_targets_room R resolve functions : ∀ pois pois' o,
  OSSFuzzPOI.parse_poi_from_optimal_targets R resolve functions pois = (pois', o) →
  ∃ new, pois' = pois ++ new ∧ length new ≤ 101 - length pois.
Proof.
  induction functions as [|function_obj functions IH]; intros pois pois' o Hparse.
  - cbn in Hparse. unfold ret in Hparse. simplify_eq. exists [].
    rewrite app_nil_r. split; [done|cbn; lia].
  - cbn [OSSFuzzPOI.parse_poi_from_optimal_targets] in Hparse.
    unfold sbind in Hparse.
    destruct (OSSFuzzPOI.target_step R resolve function_obj pois)
      as [pois1 o1] eqn:Hstep.
    assert (∃ new, pois1 = pois ++ new ∧ length new ≤ 101 - length pois)
      as (new1 & -> & Hnew1).
    { apply target_step_cases in Hstep as [->|(p & -> & _ & Hlen & _)].
      - exists []. rewrite app_nil_r. split; [done|cbn; lia].
      - exists [p]. split; [done|cbn; lia]. }
    destruct o1 as [[]|e].
    + unfold ret in Hparse. simplify_eq. by exists new1.
    + apply IH in Hparse as (new2 & -> & Hnew2).
      exists (new1 ++ new2). split; [by rewrite app_assoc|].
      rewrite length_app in *. lia.
    + simplify_eq. by exists new1.
Qed.

(** X17. The coverage-gap ingestion only appends to the catalog, and never
    past 101 entries: a catalog that already holds 101 entries or more is
    left as it is.  The bound is one above that of the crash-report
    ingestion. *)
Theorem optimal_targets_catalog (R : FunctionResolver) (resolve : string → string)
    (functions : option (list (gmap string json))) (pois : list poi) :
  ∃ new,
    (OSSFuzzPOI.add_poi R resolve functions pois).1 = pois ++ new
    ∧ length new ≤ 101 - length pois.
Proof.
  unfold OSSFuzzPOI.add_poi.
  destruct (OSSFuzzPOI.parse_poi_from_optimal_targets R resolve
              (default [] functions) pois) as [pois' o] eqn:Hparse.
  by apply parse_optimal_targets_room in Hparse.
Qed.

(** * Properties of the CodeQL ingestion *)

(** The scan of the keys on a decoded line number that is an [int] is the
    scan of [indices_at_line]. *)
Lemma indices_at_value_int R (z : Z) : ∀ keys,
  CodeQL.indices_at_value R keys (JInt z) = CrashPOI.indices_at_line R keys z.
Proof.
  induction keys as [|k keys IH]; [done|].
  cbn. destruct (get R k) as [[fi|]|e]; cbn; [| |done].
  - rewrite IH. unfold CodeQL.spans. cbn.
    destruct (CrashPOI.indices_at_line R keys z) as [rest|e]; cbn.
    + destruct (Z.leb_spec (start_line fi) z), (Z.leb_spec z (end_line fi));
        cbn; case_bool_decide; (done || lia).
    + by destruct (start_line fi <=? z)%Z, (z <=? end_line fi)%Z.
  - rewrite IH. by destruct (CrashPOI.indices_at_line R keys z).
Qed.

Lemma get_funcindex_from_value_int {A} R (func_name : A) file (z : Z) :
  CodeQL.get_funcindex_from_value R file (JInt z)
  = OSSFuzzPOI.get_funcindex_from_json R func_name file z.
Proof.
  unfold CodeQL.get_funcindex_from_value, OSSFuzzPOI.get_funcindex_from_json.
  destruct (find_by_filename R file) as [keys|e]; [|done]. cbn.
  by rewrite indices_at_value_int.
Qed.

(** What one location does: nothing, or one entry of this pipeline recorded
    under a key that is not empty and was not seen; the loop is left exactly
    when the catalog then holds more than 100 entries. *)
Lemma location_step_effect R render vname location s s' o :
  CodeQL.location_step R render vname location s = (s', o) →
  (s' = s
   ∨ ∃ k, s' = CodeQL.record_poi (CodeQL.CodeQLPOI k vname) s
          ∧ k ≠ "" ∧ (k ∉ CodeQL.seen_indices s)
          ∧ CodeQL.get_funcindex_from_codeql_report R render
              (default JNull (location !! "file"))
              (default JNull (location !! "startLine")) = Return (Some k))
  ∧ match o with
    | Return LoopBreak => 100 < length (CodeQL._pois s')
    | Return LoopContinue => length (CodeQL._pois s') ≤ 100
    | Raise _ => s' = s
    end.
Proof.
  unfold CodeQL.location_step. intros Hstep.
  unfold sbind, lift, modify, gets, ret in Hstep.
  repeat (case_match; simplify_eq/=).
  all: repeat match goal with
       | H : _ && _ = true |- _ => apply andb_true_iff in H as [? ?]
       | H : negb _ = true |- _ => apply negb_true_iff in H
       | H : bool_decide _ = false |- _ => apply bool_decide_eq_false in H
       | H : (_ <? _) = true |- _ => apply Nat.ltb_lt in H
       | H : (_ <? _) = false |- _ => apply Nat.ltb_ge in H
       end.
  all: split; [first [by left | right; by eexists]|done].
Qed.

Lemma location_step_inv R render vulns pois0 v locs location s s' o :
  CodeQL.location_step R render (CodeQL.name v) location s = (s', o) →
  v ∈ vulns → CodeQL.locations v = Some locs → location ∈ locs →
  codeql_inv R render vulns pois0 s → codeql_inv R render vulns pois0 s'.
Proof.
  intros [Hstep _]%location_step_effect Hv Hlocs Hloc
    (new & Hnew & Hseen & Hnd & Hall).
  destruct Hstep as [->|(k & -> & Hk & Hfresh & Hres)]; [by exists new|].
  rewrite Hseen, Hnew in Hfresh.
  rewrite elem_of_list_to_set, fmap_app, elem_of_app in Hfresh.
  exists (new ++ [CodeQL.CodeQLPOI k (CodeQL.name v)]). cbn.
  split; [by rewrite Hnew, app_assoc|]. split; [|split].
  - rewrite Hseen, !fmap_app, !list_to_set_app_L. cbn. set_solver.
  - rewrite fmap_app. apply NoDup_app. split; [done|]. split; [|apply NoDup_singleton].
    intros x Hx ->%list_elem_of_singleton. apply Hfresh. by right.
  - intros e [He| ->%list_elem_of_singleton]%elem_of_app; [by apply Hall|]. cbn.
    split; [done|]. split; [intros ?; apply Hfresh; by left|].
    by exists v, locs, location.
Qed.

Lemma walk_locations_inv R render vulns pois0 v locs : ∀ locs' s s' o,
  CodeQL.walk_locations R render (CodeQL.name v) locs' s = (s', o) →
  v ∈ vulns → CodeQL.locations v = Some locs →
  (∀ location, location ∈ locs' → location ∈ locs) →
  codeql_inv R render vulns pois0 s → codeql_inv R render vulns pois0 s'.
Proof.
  induction locs' as [|location locs' IH]; intros s s' o Hwalk Hv Hlocs Hsub Hinv.
  - cbn in Hwalk. unfold ret in Hwalk. by simplify_eq.
  - cbn [CodeQL.walk_locations] in Hwalk. unfold sbind in Hwalk.
    destruct (CodeQL.location_step R render (CodeQL.name v) location s)
      as [s1 o1] eqn:Hstep.
    eapply location_step_inv in Hstep; [|done|done|apply Hsub; by left|done].
    destruct o1 as [[]|e].
    + unfold ret in Hwalk. by simplify_eq.
    + eapply IH; [done..| |done]. intros l Hl. apply Hsub. by right.
    + by simplify_eq.
Qed.

Lemma walk_vulnerabilities_inv R render vulns pois0 : ∀ vulns' s s' o,
  CodeQL.walk_vulnerabilities R render vulns' s = (s', o) →
  (∀ v, v ∈ vulns' → v ∈ vulns) →
  codeql_inv R render vulns pois0 s → codeql_inv R render vulns pois0 s'.
Proof.
  induction vulns' as [|v vulns' IH]; intros s s' o Hwalk Hsub Hinv.
  - cbn in Hwalk. unfold ret in Hwalk. by simplify_eq.
  - cbn [CodeQL.walk_vulnerabilities] in Hwalk. unfold sbind in Hwalk.
    destruct (CodeQL.locations v) as [locs|] eqn:Hlocs.
    + destruct (CodeQL.walk_locations R render (CodeQL.name v) locs s)
        as [s1 o1] eqn:Hwl.
      eapply walk_locations_inv in Hwl; [|apply Hsub; by left|done|done|done].
      destruct o1 as [[]|e]; [|by simplify_eq].
      eapply IH; [done| |done]. intros v' Hv'. apply Hsub. by right.
    + unfold ret in Hwalk. eapply IH; [done| |done].
      intros v' Hv'. apply Hsub. by right.
Qed.

Lemma walk_locations_bound R render vname : ∀ locs s s' o,
  CodeQL.walk_locations R render vname locs s = (s', o) →
  length (CodeQL._pois s') ≤ max (length (CodeQL._pois s)) 100 + 1.
Proof.
  induction locs as [|location locs IH]; intros s s' o Hwalk.
  - cbn in Hwalk. unfold ret in Hwalk. simplify_eq. lia.
  - cbn [CodeQL.walk_locations] in Hwalk. unfold sbind in Hwalk.
    destruct (CodeQL.location_step R render vname location s)
      as [s1 o1] eqn:Hstep.
    apply location_step_effect in Hstep as [Hstep Ho].
    assert (length (CodeQL._pois s1) ≤ length (CodeQL._pois s) + 1) as Hone.
    { destruct Hstep as [->|(k & -> & _)]; [lia|]. cbn. rewrite length_app. cbn. lia. }
    destruct o1 as [[]|e].
    + unfold ret in Hwalk. simplify_eq. lia.
    + apply IH in Hwalk. lia.
    + simplify_eq. lia.
Qed.

Lemma walk_vulnerabilities_bound R render : ∀ vulns s s' o,
  CodeQL.walk_vulnerabilities R render vulns s = (s', o) →
  length (CodeQL._pois s') ≤ max (length (CodeQL._pois s)) 100 + length vulns.
Proof.
  induction vulns as [|v vulns IH]; intros s s' o Hwalk.
  - cbn in Hwalk. unfold ret in Hwalk. simplify_eq. cbn. lia.
  - cbn [CodeQL.walk_vulnerabilities] in Hwalk. unfold sbind in Hwalk.
    destruct (CodeQL.locations v) as [locs|].
    + destruct (CodeQL.walk_locations R render (CodeQL.name v) locs s)
        as [s1 o1] eqn:Hwl.
      apply walk_locations_bound in Hwl.
      destruct o1 as [[]|e]; [|simplify_eq; cbn; lia].
      apply IH in Hwalk. cbn. lia.
    + unfold ret in Hwalk. apply IH in Hwalk. cbn. lia.
Qed.

(** X18. The CodeQL ingestion keeps the entries the catalog held in front
    and appends only entries of its own, each built from a location of a
    vulnerability of the report with that vulnerability's name and the key
    the lookup gave for the location; the keys of the appended entries are
    not empty, pairwise distinct, and none of them is the key of an entry
    the catalog already held, whatever pipeline put it there. *)
Theorem codeql_report_dedup (R : FunctionResolver) (render : json → string)
    (vulnerabilities : list CodeQL.vulnerability)
    (pois : list CodeQL.catalog_entry) :
  ∃ new,
    (CodeQL.parse_poi_from_codeql_report R render (Some vulnerabilities) pois).1
    = pois ++ new
    ∧ NoDup (CodeQL.entry_key <$> new)
    ∧ ∀ e, e ∈ new →
        CodeQL.entry_key e ≠ ""
        ∧ (CodeQL.entry_key e ∉ CodeQL.entry_key <$> pois)
        ∧ ∃ v locs location,
            v ∈ vulnerabilities ∧ CodeQL.locations v = Some locs ∧ location ∈ locs
            ∧ e = CodeQL.CodeQLPOI (CodeQL.entry_key e) (CodeQL.name v)
            ∧ CodeQL.get_funcindex_from_codeql_report R render
                (default JNull (location !! "file"))
                (default JNull (location !! "startLine"))
              = Return (Some (CodeQL.entry_key e)).
Proof.
  unfold CodeQL.parse_poi_from_codeql_report. cbn [fst].
  destruct (CodeQL.walk_vulnerabilities R render vulnerabilities _)
    as [s' o] eqn:Hwalk.
  eapply (walk_vulnerabilities_inv _ _ vulnerabilities pois) in Hwalk
    as (new & Hnew & _ & Hnd & Hall); [by exists new|done|].
  exists []. cbn. rewrite app_nil_r. split; [done|]. split; [done|].
  split; [constructor|]. by intros e ?%elem_of_nil.
Qed.

(** X19. The 100-entry guard of the CodeQL ingestion only leaves the loop
    over the locations of one vulnerability: the catalog ends with at most
    one entry per vulnerability of the report above the larger of 100 and
    its size before, and a report without the [vulnerabilities] key leaves
    it unchanged. *)
Theorem codeql_report_bound (R : FunctionResolver) (render : json → string)
    (vulnerabilities : option (list CodeQL.vulnerability))
    (pois : list CodeQL.catalog_entry) :
  length (CodeQL.parse_poi_from_codeql_report R render vulnerabilities pois).1
  ≤ max (length pois) 100 + length (default [] vulnerabilities)
  ∧ (vulnerabilities = None →
     CodeQL.parse_poi_from_codeql_report R render vulnerabilities pois
     = (pois, Return tt)).
Proof.
  split; [|by intros ->].
  destruct vulnerabilities as [vulns|]; cbn; [|lia].
  destruct (CodeQL.walk_vulnerabilities R render vulns _) as [s' o] eqn:Hwalk.
  by apply walk_vulnerabilities_bound in Hwalk.
Qed.

(** X20. The guard does not keep the catalog within 100 entries: a
    vulnerability with a single location whose lookup gives a key that is
    not empty and not yet in the catalog is appended whatever the size of
    the catalog. *)
Theorem codeql_report_exceeds_cap (R : FunctionResolver) (render : json → string)
    (vname : json) (location : gmap string json) (k : string)
    (pois : list CodeQL.catalog_entry) :
  CodeQL.get_funcindex_from_codeql_report R render
    (default JNull (location !! "file"))
    (default JNull (location !! "startLine")) = Return (Some k) →
  k ≠ "" →
  k ∉ CodeQL.entry_key <$> pois →
  CodeQL.parse_poi_from_codeql_report R render
    (Some [{| CodeQL.name := vname; CodeQL.locations := Some [location] |}]) pois
  = (pois ++ [CodeQL.CodeQLPOI k vname], Return tt).
Proof.
  intros Hres Hk Hfresh.
  unfold CodeQL.parse_poi_from_codeql_report. cbn -[Nat.ltb].
  unfold sbind, CodeQL.location_step, sbind, lift, gets, modify, ret.
  cbn -[Nat.ltb]. rewrite Hres. cbn -[Nat.ltb].
  rewrite (bool_decide_eq_false_2 (k = "")) by done.
  rewrite (bool_decide_eq_false_2 (k ∈ _)) by (by rewrite elem_of_list_to_set).
  cbn -[Nat.ltb]. by destruct (100 <? _).
Qed.

Lemma codeql_report_exceeds_cap_witness :
  CodeQL.parse_poi_from_codeql_report parse_header_resolver (λ _, "")
    (Some [{| CodeQL.name := JStr "cpp/overflow-buffer";
              CodeQL.locations := Some [parse_header_location] |}])
    crowded_catalog
  = (crowded_catalog
       ++ [CodeQL.CodeQLPOI parse_header_key (JStr "cpp/overflow-buffer")],
     Return tt).
Proof.
  apply codeql_report_exceeds_cap.
  - vm_compute. reflexivity.
  - discriminate.
  - apply (bool_decide_unpack _). vm_compute. exact I.
Defined.
